(** * demo-lang: a shallow embedding of the lexer, parser, compiler and VM

    Rust [String] is modelled as [string] (every character the program
    builds is a [u8 as char], so a Rocq [ascii] per character is exact);
    [u8] is [ascii]; [usize] and [u32] are [nat]; [i32] is [Z] with its
    range checked where the Rust code checks it.  A [HashMap] is an
    association list in which [map_insert] replaces the entry of an existing
    key, so lookups behave as in the Rust map.  An [f32] is kept as the
    decimal it was parsed from ([mantissa * 10 ^ exponent]); rounding to
    binary32 is not modelled, and nothing below depends on it. *)

From Stdlib Require Import String Ascii List ZArith Lia Bool.
Import ListNotations.
Set Warnings "-register-all".
Open Scope string_scope.
Open Scope list_scope.

(* ------------------------------------------------------------------ *)
(** ** Association-list maps (Rust [HashMap]) *)

Section Map.
Context {K V : Type} (eqb : K -> K -> bool).
Hypothesis eqb_spec : forall a b, eqb a b = true <-> a = b.

Fixpoint map_get (k : K) (m : list (K * V)) : option V :=
  match m with
  | [] => None
  | (k', v) :: m' => if eqb k k' then Some v else map_get k m'
  end.

(** [HashMap::insert]: replaces the value of an existing key. *)
Fixpoint map_insert (k : K) (v : V) (m : list (K * V)) : list (K * V) :=
  match m with
  | [] => [(k, v)]
  | (k', v') :: m' =>
      if eqb k k' then (k', v) :: m' else (k', v') :: map_insert k v m'
  end.

Lemma map_get_insert k k' v m :
  map_get k (map_insert k' v m) = if eqb k k' then Some v else map_get k m.
Proof.
  induction m as [|[k0 v0] m IH]; simpl.
  - reflexivity.
  - destruct (eqb k' k0) eqn:E1; simpl.
    + apply eqb_spec in E1; subst k0.
      destruct (eqb k k'); reflexivity.
    + rewrite IH. destruct (eqb k k0) eqn:E2; [|reflexivity].
      apply eqb_spec in E2; subst k0.
      destruct (eqb k k') eqn:E3; [|reflexivity].
      apply eqb_spec in E3; subst k'.
      assert (eqb k k = true) as E by (apply eqb_spec; reflexivity).
      congruence.
Qed.
End Map.

Lemma string_eqb_spec : forall a b, String.eqb a b = true <-> a = b.
Proof. intros a b. apply String.eqb_eq. Qed.

Lemma N_eqb_spec : forall a b, N.eqb a b = true <-> a = b.
Proof. intros a b. apply N.eqb_eq. Qed.

(** Rust [Vec] used as a stack: the last element is the top. *)
Definition vec_pop {A} (v : list A) : option (list A * A) :=
  match rev v with
  | [] => None
  | x :: r => Some (rev r, x)
  end.

Lemma vec_pop_app {A} (v : list A) (x : A) : vec_pop (v ++ [x]) = Some (v, x).
Proof. unfold vec_pop. rewrite rev_app_distr. simpl. rewrite rev_involutive. reflexivity. Qed.

Lemma vec_pop_nil {A} : @vec_pop A [] = None.
Proof. reflexivity. Qed.

(* ------------------------------------------------------------------ *)
(** ** Source positions and numbers *)

(** [source::Span].  Its fields are [u32] counters that [shift] bumps with
    [+= 1]; the model counts in [nat], which agrees with them as long as
    neither reaches [2^32] (a source of fewer than [2^32 - 1] bytes). *)
Record Span := { line : nat; column : nat }.

(** An [f32] value, as the decimal it denotes. *)
Record f32 := { f_mantissa : Z; f_exponent : Z }.

(* ------------------------------------------------------------------ *)
(** ** AST ([ast.rs]) *)

Module Operator.
Inductive Operator :=
| BiteAnd | BiteOr | Plus | Minus | Times | Div | Rem | Less | Greater
| LessEquals | GreaterEquals | And | Or | Xor | Equals | NotEquals.
End Operator.

Module UnaryOperator.
Inductive UnaryOperator := Plus | Minus | Not.
End UnaryOperator.

Record TypeDefVariant := { variant_name : string; variant_properties : list string }.
Record TypeDef := { typedef_name : string; variants : list TypeDefVariant }.

(** [ast::Expression] and [ast::Statement]; constructors carry the Rust
    variant name behind a prefix ([E] for expressions, [S] for statements);
    [Statement::Variable(Variable { name, value })] is [SVariable name value]. *)
Inductive Expression :=
| EInt (value : Z)
| EFloat (value : f32)
| EString (value : string)
| EFunCall (name : string) (args : list Expression)
| EOperator (operator : Operator.Operator) (left right : Expression)
| EUnaryOperator (operator : UnaryOperator.UnaryOperator) (expr : Expression)
| EList (items : list Expression)
| ETuple (values : list Expression)
| ELambda (args : list string) (code : list Statement)
| EReturn (value : Expression)
with Statement :=
| SVariable (name : string) (value : Expression)
| SExpression (e : Expression)
| STypeDef (def : TypeDef).

Record Program := { statements : list Statement }.

(* ------------------------------------------------------------------ *)
(** ** Bytecode ([run.rs]) *)

Record InstanceClass := {
  class_id : N;
  class_typedef : TypeDef;
  class_variant : string;
  class_properties : list string
}.

(** [run::Inst] *)
Inductive Inst :=
| ISet (name : string)
| IInt (value : Z)
| IFloat (value : f32)
| IString (value : string)
| ICall (name : string)
| IList (items : nat)
| ITuple (items : nat)
| IFunction (func : N)
| IReturn.

(** [run::CompiledFunction]; [functions] is the [HashMap<usize, _>] of
    nested lambdas, [instance_classes] the [HashMap<String, _>] of
    nested type constructors. *)
Inductive CompiledFunction := mkCompiledFunction {
  args : nat;
  code : list Inst;
  functions : list (N * CompiledFunction);
  instance_classes : list (string * InstanceClass)
}.

Record CompiledProgram := { root_function : CompiledFunction }.

(** [run::Instance] and [run::Value] *)
Inductive Value :=
| VUnit
| VInt (v : Z)
| VFloat (v : f32)
| VString (s : string)
| VList (items : list Value)
| VTuple (items : list Value)
| VFunction (func : N)
| VInstance (class : N) (properties : list Value).

(* ------------------------------------------------------------------ *)
(** ** Compiler ([compiler.rs]) *)

(** [Compiler { next_id }]; compilation cannot fail ([CompileError] has no
    values), so the compiler is a total state-passing function. *)
Record Compiler := { next_id : N }.

Definition compiler_next_id (c : Compiler) : Compiler * N :=
  ({| next_id := N.succ (next_id c) |}, next_id c).

Definition push_code (node : CompiledFunction) (i : Inst) : CompiledFunction :=
  mkCompiledFunction (args node) (code node ++ [i]) (functions node) (instance_classes node).

Definition insert_function (node : CompiledFunction) (id : N) (f : CompiledFunction)
  : CompiledFunction :=
  mkCompiledFunction (args node) (code node)
    (map_insert N.eqb id f (functions node)) (instance_classes node).

Definition insert_class (node : CompiledFunction) (name : string) (c : InstanceClass)
  : CompiledFunction :=
  mkCompiledFunction (args node) (code node) (functions node)
    (map_insert String.eqb name c (instance_classes node)).

Definition operator_name (op : Operator.Operator) : string :=
  match op with
  | Operator.BiteAnd => "&" | Operator.BiteOr => "|" | Operator.Plus => "+"
  | Operator.Minus => "-" | Operator.Times => "*" | Operator.Div => "/"
  | Operator.Rem => "%" | Operator.Less => "<" | Operator.Greater => ">"
  | Operator.LessEquals => "<=" | Operator.GreaterEquals => ">="
  | Operator.And => "&&" | Operator.Or => "||" | Operator.Xor => "^"
  | Operator.Equals => "==" | Operator.NotEquals => "!="
  end.

Definition unary_operator_name (op : UnaryOperator.UnaryOperator) : string :=
  match op with
  | UnaryOperator.Plus => "unary_plus"
  | UnaryOperator.Minus => "unary_minus"
  | UnaryOperator.Not => "unary_not"
  end.

(** [Statement::TypeDef]: one class per variant, ids from [next_id]. *)
Fixpoint compile_variants (c : Compiler) (node : CompiledFunction) (def : TypeDef)
    (vs : list TypeDefVariant) : Compiler * CompiledFunction :=
  match vs with
  | [] => (c, node)
  | variant :: vs' =>
      let (c1, id) := compiler_next_id c in
      let class := {| class_id := id; class_typedef := def;
                      class_variant := variant_name variant;
                      class_properties := variant_properties variant |} in
      compile_variants c1 (insert_class node (variant_name variant) class) def vs'
  end.

Fixpoint compile_expression (c : Compiler) (node : CompiledFunction) (expr : Expression)
  {struct expr} : Compiler * CompiledFunction :=
  let fix compile_all (c : Compiler) (node : CompiledFunction) (es : list Expression)
      : Compiler * CompiledFunction :=
    match es with
    | [] => (c, node)
    | e :: es' => let (c1, n1) := compile_expression c node e in compile_all c1 n1 es'
    end in
  match expr with
  | EUnaryOperator op e =>
      let (c1, n1) := compile_expression c node e in
      (c1, push_code n1 (ICall (unary_operator_name op)))
  | EInt v => (c, push_code node (IInt v))
  | EFloat v => (c, push_code node (IFloat v))
  | EString v => (c, push_code node (IString v))
  | EFunCall name args =>
      let (c1, n1) := compile_all c node args in (c1, push_code n1 (ICall name))
  | EOperator op l r =>
      let (c1, n1) := compile_expression c node l in
      let (c2, n2) := compile_expression c1 n1 r in
      (c2, push_code n2 (ICall (operator_name op)))
  | EList items =>
      let len := length items in
      let (c1, n1) := compile_all c node items in (c1, push_code n1 (IList len))
  | ETuple values =>
      let len := length values in
      let (c1, n1) := compile_all c node values in (c1, push_code n1 (ITuple len))
  | ELambda params body =>
      let lambda := mkCompiledFunction (length params) (map ISet (rev params)) [] [] in
      let fix compile_body (c : Compiler) (node : CompiledFunction) (ss : list Statement)
          : Compiler * CompiledFunction :=
        match ss with
        | [] => (c, node)
        | s :: ss' =>
            let (c1, n1) := compile_statement c node s in compile_body c1 n1 ss'
        end in
      let (c1, lambda') := compile_body c lambda body in
      let (c2, id) := compiler_next_id c1 in
      (c2, push_code (insert_function node id lambda') (IFunction id))
  | EReturn v =>
      let (c1, n1) := compile_expression c node v in (c1, push_code n1 IReturn)
  end
with compile_statement (c : Compiler) (node : CompiledFunction) (stm : Statement)
  {struct stm} : Compiler * CompiledFunction :=
  match stm with
  | SVariable name value =>
      let (c1, n1) := compile_expression c node value in (c1, push_code n1 (ISet name))
  | SExpression e => compile_expression c node e
  | STypeDef def => compile_variants c node def (variants def)
  end.

Fixpoint compile_statements (c : Compiler) (node : CompiledFunction) (ss : list Statement)
  : Compiler * CompiledFunction :=
  match ss with
  | [] => (c, node)
  | s :: ss' => let (c1, n1) := compile_statement c node s in compile_statements c1 n1 ss'
  end.

(** [Compiler::new().compile(program)] *)
Definition compile (program : Program) : CompiledProgram :=
  let root := mkCompiledFunction 0 [] [] [] in
  {| root_function := snd (compile_statements {| next_id := 0%N |} root (statements program)) |}.

(* ------------------------------------------------------------------ *)
(** ** Runtime ([runtime.rs]) *)

(** [runtime::RuntimeError].  The program builds [Custom(String)] only as
    [format!("<text>: {:?}", value)] (in [builtins.rs]); the model keeps
    that message as its two parts: the fixed [text] and the [value] whose
    [Debug] rendering follows [": "]. *)
Inductive RuntimeError :=
| StackUnderflow
| UndefinedName (name : string)
| Custom (text : string) (value : Value).

(** What a Rust computation does: returns a value, returns an [Err],
    panics (a failed [unwrap] or an [i32] overflow in a debug build), or,
    in this model only, runs out of the fuel that bounds its loops and
    recursion. *)
Inductive Outcome (A : Type) :=
| Done (a : A)
| Error (e : RuntimeError)
| Panic
| NoFuel.
Arguments Done {A} a.
Arguments Error {A} e.
Arguments Panic {A}.
Arguments NoFuel {A}.

Definition bind {A B} (m : Outcome A) (k : A -> Outcome B) : Outcome B :=
  match m with
  | Done a => k a
  | Error e => Error e
  | Panic => Panic
  | NoFuel => NoFuel
  end.

Notation "x <- m ;; k" := (bind m (fun x => k))
  (at level 61, m at next level, right associativity).

(** A native function: [fn(&mut Runtime, Vec<Value>) -> Result<Value, RuntimeError>].
    The natives of [builtins.rs] ignore their [&mut Runtime] argument, so the
    model gives them only the argument vector. *)
Record BuiltinFunction := {
  bargs : nat;
  func : list Value -> Outcome Value
}.

Record Runtime := {
  builtin_functions : list (string * BuiltinFunction);
  builtin_instance_classes : list (string * InstanceClass);
  builtin_id_to_class : list (N * InstanceClass);
  rt_next_id : N
}.

Definition runtime_new : Runtime :=
  {| builtin_functions := []; builtin_instance_classes := [];
     builtin_id_to_class := []; rt_next_id := 100000%N |}.

Definition register_func (rt : Runtime) (name : string) (n : nat)
    (f : list Value -> Outcome Value) : Runtime :=
  {| builtin_functions := map_insert String.eqb name {| bargs := n; func := f |}
                            (builtin_functions rt);
     builtin_instance_classes := builtin_instance_classes rt;
     builtin_id_to_class := builtin_id_to_class rt;
     rt_next_id := rt_next_id rt |}.

Fixpoint register_variants (rt : Runtime) (def : TypeDef) (vs : list TypeDefVariant)
  : Runtime :=
  match vs with
  | [] => rt
  | variant :: vs' =>
      let class := {| class_id := rt_next_id rt; class_typedef := def;
                      class_variant := variant_name variant;
                      class_properties := variant_properties variant |} in
      register_variants
        {| builtin_functions := builtin_functions rt;
           builtin_instance_classes :=
             map_insert String.eqb (variant_name variant) class (builtin_instance_classes rt);
           builtin_id_to_class := map_insert N.eqb (class_id class) class (builtin_id_to_class rt);
           rt_next_id := N.succ (rt_next_id rt) |} def vs'
  end.

Definition register_type (rt : Runtime) (def : TypeDef) : Runtime :=
  register_variants rt def (variants def).

(** [StackFrame] and [Env]: [frames] is the Rust [Vec], last element on top. *)
Record StackFrame := {
  variables : list (string * Value);
  frame_functions : list (N * CompiledFunction);
  frame_instance_classes : list (string * InstanceClass);
  id_to_class : list (N * InstanceClass)
}.

Record Env := { frames : list StackFrame }.

Fixpoint frames_get (fs : list StackFrame) (name : string) : option Value :=
  match fs with
  | [] => None
  | f :: fs' =>
      match map_get String.eqb name (variables f) with
      | Some v => Some v
      | None => frames_get fs' name
      end
  end.

(** [Env::get]: [self.frames.iter().rev()] *)
Definition env_get (env : Env) (name : string) : option Value :=
  frames_get (rev (frames env)) name.

Definition set_variable (f : StackFrame) (name : string) (v : Value) : StackFrame :=
  {| variables := map_insert String.eqb name v (variables f);
     frame_functions := frame_functions f;
     frame_instance_classes := frame_instance_classes f;
     id_to_class := id_to_class f |}.

(** [Env::set]: the topmost frame, if any. *)
Definition env_set (env : Env) (name : string) (v : Value) : Env :=
  match rev (frames env) with
  | [] => env
  | top :: below => {| frames := rev below ++ [set_variable top name v] |}
  end.

Fixpoint frames_get_instance_class (fs : list StackFrame) (name : string)
  : option InstanceClass :=
  match fs with
  | [] => None
  | f :: fs' =>
      match map_get String.eqb name (frame_instance_classes f) with
      | Some c => Some c
      | None => frames_get_instance_class fs' name
      end
  end.

Definition env_get_instance_class (env : Env) (name : string) : option InstanceClass :=
  frames_get_instance_class (rev (frames env)) name.

Fixpoint frames_get_function (fs : list StackFrame) (id : N) : option CompiledFunction :=
  match fs with
  | [] => None
  | f :: fs' =>
      match map_get N.eqb id (frame_functions f) with
      | Some c => Some c
      | None => frames_get_function fs' id
      end
  end.

Definition env_get_function (env : Env) (id : N) : option CompiledFunction :=
  frames_get_function (rev (frames env)) id.

(** [Env::push]: a fresh frame exposing the function's own tables. *)
Definition env_push (env : Env) (f : CompiledFunction) : Env :=
  let classes := map snd (instance_classes f) in
  {| frames := frames env ++
       [{| variables := [];
           frame_functions := functions f;
           id_to_class :=
             fold_left (fun m c => map_insert N.eqb (class_id c) c m) classes [];
           frame_instance_classes :=
             fold_left (fun m c => map_insert String.eqb (class_variant c) c m) classes [] |}] |}.

(** [Env::pop]: [self.frames.pop().unwrap()] panics on an empty stack. *)
Definition env_pop (env : Env) : option Env :=
  match vec_pop (frames env) with
  | None => None
  | Some (fs, _) => Some {| frames := fs |}
  end.

(** [for _ in 0..n { args.push(stack.pop().ok_or(StackUnderflow)?) }]:
    [None] is the [StackUnderflow] error. *)
Fixpoint pop_n (n : nat) (stack acc : list Value) : option (list Value * list Value) :=
  match n with
  | 0 => Some (stack, acc)
  | S n' =>
      match vec_pop stack with
      | None => None
      | Some (stack', v) => pop_n n' stack' (acc ++ [v])
      end
  end.

(** [Runtime::run_function], one instruction per unit of fuel.  The loop
    over [p.code] is the recursion on [code]; [Inst::Return] ends the
    current invocation only.  [run_code fuel rt env insts stack] returns the
    environment (the Rust [&mut Env]) with the invocation's value. *)
Fixpoint run_code (fuel : nat) (rt : Runtime) (env : Env) (insts : list Inst)
    (stack : list Value) {struct fuel} : Outcome (Env * Value) :=
  match fuel with
  | 0 => NoFuel
  | S fuel' =>
  match insts with
  | [] => Done (env, match vec_pop stack with Some (_, v) => v | None => VUnit end)
  | inst :: rest =>
  match inst with
  | ISet name =>
      match vec_pop stack with
      | None => Error StackUnderflow
      | Some (stack', v) => run_code fuel' rt (env_set env name v) rest stack'
      end
  | IInt v => run_code fuel' rt env rest (stack ++ [VInt v])
  | IFloat v => run_code fuel' rt env rest (stack ++ [VFloat v])
  | IString v => run_code fuel' rt env rest (stack ++ [VString v])
  | ICall name =>
      (* Variable *)
      match env_get env name with
      | Some (VFunction id) =>
          match env_get_function env id with
          | None => Panic (* unwrap of env.get_function *)
          | Some f =>
              match pop_n (args f) stack [] with
              | None => Error StackUnderflow
              | Some (stack', argv) =>
                  bind (run_code fuel' rt (env_push env f) (code f) argv) (fun r =>
                    match env_pop (fst r) with
                    | None => Panic
                    | Some env' => run_code fuel' rt env' rest (stack' ++ [snd r])
                    end)
              end
          end
      | Some value => run_code fuel' rt env rest (stack ++ [value])
      | None =>
      (* TypeDef *)
      match env_get_instance_class env name with
      | Some c =>
          match pop_n (length (class_properties c)) stack [] with
          | None => Error StackUnderflow
          | Some (stack', properties) =>
              run_code fuel' rt env rest (stack' ++ [VInstance (class_id c) properties])
          end
      | None =>
      (* Builtin function *)
      match map_get String.eqb name (builtin_functions rt) with
      | Some f =>
          match pop_n (bargs f) stack [] with
          | None => Error StackUnderflow
          | Some (stack', argv) =>
              bind (func f argv) (fun result => run_code fuel' rt env rest (stack' ++ [result]))
          end
      | None =>
      (* Builtin TypeDef *)
      match map_get String.eqb name (builtin_instance_classes rt) with
      | Some c =>
          match pop_n (length (class_properties c)) stack [] with
          | None => Error StackUnderflow
          | Some (stack', properties) =>
              run_code fuel' rt env rest (stack' ++ [VInstance (class_id c) properties])
          end
      | None => Error (UndefinedName name)
      end end end end
  | IList n =>
      match pop_n n stack [] with
      | None => Error StackUnderflow
      | Some (stack', values) => run_code fuel' rt env rest (stack' ++ [VList values])
      end
  | ITuple n =>
      match pop_n n stack [] with
      | None => Error StackUnderflow
      | Some (stack', values) => run_code fuel' rt env rest (stack' ++ [VTuple values])
      end
  | IFunction id => run_code fuel' rt env rest (stack ++ [VFunction id])
  | IReturn =>
      match vec_pop stack with
      | None => Error StackUnderflow
      | Some (_, v) => Done (env, v)
      end
  end end end.

Definition run_function (fuel : nat) (rt : Runtime) (env : Env) (p : CompiledFunction)
    (argv : list Value) : Outcome (Env * Value) :=
  run_code fuel rt env (code p) argv.

(** [Runtime::run] *)
Definition run (fuel : nat) (rt : Runtime) (cp : CompiledProgram) : Outcome Value :=
  let env := env_push {| frames := [] |} (root_function cp) in
  bind (run_function fuel rt env (root_function cp) []) (fun r =>
    match env_pop (fst r) with
    | None => Panic
    | Some _ => Done (snd r)
    end).

(* ------------------------------------------------------------------ *)
(** ** Natives ([builtins.rs]) *)

Definition i32_min : Z := (- 2 ^ 31)%Z.

(** [args.into_iter().next().unwrap()] *)
Definition first_arg (argv : list Value) : Outcome Value :=
  match argv with
  | v :: _ => Done v
  | [] => Panic
  end.

(** [print] writes the [Debug] form of its argument (not modelled) and
    returns it. *)
Definition builtin_print (argv : list Value) : Outcome Value :=
  first_arg argv.

(** [-value] on an [i32] panics on [i32::MIN] in a debug build.  The
    [Custom] error carries the text before [": {:?}"] and the value. *)
Definition builtin_unary_minus (argv : list Value) : Outcome Value :=
  bind (first_arg argv) (fun param =>
  match param with
  | VInt v => if Z.eqb v i32_min then Panic else Done (VInt (- v))
  | VFloat v => Done (VFloat {| f_mantissa := - f_mantissa v; f_exponent := f_exponent v |})
  | _ => Error (Custom "Unable to negate non numeric value" param)
  end)%Z.

Definition builtin_unary_plus (argv : list Value) : Outcome Value :=
  bind (first_arg argv) (fun param =>
  match param with
  | VInt v => Done (VInt v)
  | VFloat v => Done (VFloat v)
  | _ => Error (Custom "Unable to use unary plus on non numeric value" param)
  end).

Definition boolean_typedef : TypeDef :=
  {| typedef_name := "Boolean";
     variants := [ {| variant_name := "True"; variant_properties := [] |};
                   {| variant_name := "False"; variant_properties := [] |} ] |}.

Definition register_builtins (rt : Runtime) : Runtime :=
  let rt := register_func rt "print" 1 builtin_print in
  let rt := register_func rt "unary_minus" 1 builtin_unary_minus in
  let rt := register_func rt "unary_plus" 1 builtin_unary_plus in
  register_type rt boolean_typedef.

(** The runtime of [main]: [Runtime::new()] then [register_builtins]. *)
Definition main_runtime : Runtime := register_builtins runtime_new.

(* ------------------------------------------------------------------ *)
(** ** Tokens ([tokenizer.rs]) *)

Module Token.
(** [tokenizer::Token], in declaration order. *)
Inductive Token :=
| Identifier (name : string)
| FloatingLiteral (text : string)
| IntegerLiteral (text : string)
| StringLiteral (text : string)
| Auto
| Break
| Case
| Char
| Const
| Continue
| Default
| Do
| Double
| Else
| Enum
| Extern
| Float
| For
| Goto
| If
| Int
| Long
| Register
| Return
| Short
| Signed
| Sizeof
| Static
| Struct
| Switch
| Typedef
| Union
| Unsigned
| Void
| Volatile
| While
| LeftParen
| RightParen
| LeftBrace
| RightBrace
| LeftBracket
| RightBracket
| Less
| LessEquals
| Greater
| GreaterEquals
| LeftAssign
| RightAssign
| LeftShift
| RightShift
| Ellipsis
| Tilde
| QuestionMark
| Semicolon
| Equals
| Assign
| Colon
| Comma
| NotEquals
| Not
| At
| Hash
| Dollar
| Percent
| Xor
| Ampersand
| And
| Or
| Times
| Div
| Minus
| MinusMinus
| Plus
| PlusPlus
| Pointer
| Pipe
| PercentAssign
| XorAssign
| AndAssign
| DivAssign
| TimesAssign
| MinusAssign
| PlusAssign
| OrAssign
| Dot
| Eof
| Error (c : ascii) (s : Span).

(** The position of each variant in the declaration, to compare tokens. *)
Definition tag (t : Token) : nat :=
  match t with
  | Identifier _ => 0
  | FloatingLiteral _ => 1
  | IntegerLiteral _ => 2
  | StringLiteral _ => 3
  | Auto => 4
  | Break => 5
  | Case => 6
  | Char => 7
  | Const => 8
  | Continue => 9
  | Default => 10
  | Do => 11
  | Double => 12
  | Else => 13
  | Enum => 14
  | Extern => 15
  | Float => 16
  | For => 17
  | Goto => 18
  | If => 19
  | Int => 20
  | Long => 21
  | Register => 22
  | Return => 23
  | Short => 24
  | Signed => 25
  | Sizeof => 26
  | Static => 27
  | Struct => 28
  | Switch => 29
  | Typedef => 30
  | Union => 31
  | Unsigned => 32
  | Void => 33
  | Volatile => 34
  | While => 35
  | LeftParen => 36
  | RightParen => 37
  | LeftBrace => 38
  | RightBrace => 39
  | LeftBracket => 40
  | RightBracket => 41
  | Less => 42
  | LessEquals => 43
  | Greater => 44
  | GreaterEquals => 45
  | LeftAssign => 46
  | RightAssign => 47
  | LeftShift => 48
  | RightShift => 49
  | Ellipsis => 50
  | Tilde => 51
  | QuestionMark => 52
  | Semicolon => 53
  | Equals => 54
  | Assign => 55
  | Colon => 56
  | Comma => 57
  | NotEquals => 58
  | Not => 59
  | At => 60
  | Hash => 61
  | Dollar => 62
  | Percent => 63
  | Xor => 64
  | Ampersand => 65
  | And => 66
  | Or => 67
  | Times => 68
  | Div => 69
  | Minus => 70
  | MinusMinus => 71
  | Plus => 72
  | PlusPlus => 73
  | Pointer => 74
  | Pipe => 75
  | PercentAssign => 76
  | XorAssign => 77
  | AndAssign => 78
  | DivAssign => 79
  | TimesAssign => 80
  | MinusAssign => 81
  | PlusAssign => 82
  | OrAssign => 83
  | Dot => 84
  | Eof => 85
  | Error _ _ => 86
  end.

(** The derived [PartialEq] of [Token]. *)
Definition eqb (a b : Token) : bool :=
  match a, b with
  | Identifier x, Identifier y => String.eqb x y
  | FloatingLiteral x, FloatingLiteral y => String.eqb x y
  | IntegerLiteral x, IntegerLiteral y => String.eqb x y
  | StringLiteral x, StringLiteral y => String.eqb x y
  | Error c s, Error c' s' =>
      Ascii.eqb c c' && Nat.eqb (line s) (line s') && Nat.eqb (column s) (column s')
  | _, _ => Nat.eqb (tag a) (tag b)
  end.
End Token.

Definition TokenSpan : Type := (Span * Span)%type.

(* ------------------------------------------------------------------ *)
(** ** Source reader ([source.rs], the [CodeSource::Str] source) *)

Definition BUFFER_SIZE : nat := 64.
Definition LOOKAHEAD_AMOUNT : nat := 3.
Definition nul : ascii := "000"%char.

(** [SourceReader] over [CodeSource::Str { code, offset }]. *)
Record SourceReader := mkReader {
  src_code : list ascii;
  src_offset : nat;
  lookahead : list ascii;       (** the [VecDeque], front first *)
  buffer : list ascii;          (** [[u8; BUFFER_SIZE]] *)
  count : nat;
  pos : nat;
  span : Span;
  eof : bool
}.

Definition fill_buffer (r : SourceReader) : SourceReader :=
  if eof r then r else
  let remaining := skipn (src_offset r) (src_code r) in
  let line_size := min BUFFER_SIZE (length remaining) in
  mkReader (src_code r) (src_offset r + line_size) (lookahead r)
    (firstn line_size remaining ++ skipn line_size (buffer r))
    line_size (pos r) (span r) (Nat.eqb line_size 0).

Definition set_pos (r : SourceReader) (p : nat) : SourceReader :=
  mkReader (src_code r) (src_offset r) (lookahead r) (buffer r) (count r) p (span r) (eof r).

Definition push_back (r : SourceReader) (b : ascii) : SourceReader :=
  mkReader (src_code r) (src_offset r) (lookahead r ++ [b]) (buffer r) (count r) (pos r)
    (span r) (eof r).

(** [while self.lookahead.len() < LOOKAHEAD_AMOUNT]: each round adds one
    byte, so [LOOKAHEAD_AMOUNT] rounds always suffice. *)
Fixpoint fill_lookahead_loop (n : nat) (r : SourceReader) : SourceReader :=
  match n with
  | 0 => r
  | S n' =>
      if Nat.ltb (length (lookahead r)) LOOKAHEAD_AMOUNT then
        let r := if Nat.leb (count r) (pos r) then set_pos (fill_buffer r) 0 else r in
        let r := if negb (eof r)
                 then set_pos (push_back r (nth (pos r) (buffer r) nul)) (S (pos r))
                 else push_back r nul in
        fill_lookahead_loop n' r
      else r
  end.

Definition fill_lookahead (r : SourceReader) : SourceReader :=
  fill_lookahead_loop LOOKAHEAD_AMOUNT r.

(** [SourceReader::new(CodeSource::str(code))] *)
Definition reader_new (code : string) : SourceReader :=
  fill_lookahead (mkReader (list_ascii_of_string code) 0 [] (repeat nul BUFFER_SIZE) 0 0
                    {| line := 1; column := 1 |} false).

Definition current (r : SourceReader) : ascii := nth 0 (lookahead r) nul.
Definition next (r : SourceReader) : ascii := nth 1 (lookahead r) nul.
Definition next_next (r : SourceReader) : ascii := nth 2 (lookahead r) nul.

Definition shift (r : SourceReader) : SourceReader :=
  let sp := if eof r then span r
            else if Ascii.eqb (current r) "010"%char
                 then {| line := S (line (span r)); column := 1 |}
                 else {| line := line (span r); column := S (column (span r)) |} in
  fill_lookahead
    (mkReader (src_code r) (src_offset r) (tl (lookahead r)) (buffer r) (count r) (pos r)
       sp (eof r)).

(** [shift_multiple] does nothing once the underlying source is exhausted. *)
Definition shift_multiple (r : SourceReader) (amount : nat) : SourceReader :=
  if eof r then r else Nat.iter amount shift r.

(* ------------------------------------------------------------------ *)
(** ** Tokenizer ([Tokenizer], state = its [SourceReader]) *)

(** Every loop of the tokenizer runs on [fuel]; [None] means the fuel ran
    out before the loop ended. *)
Notation "'let?' x ':=' e 'in' k" :=
  (match e with Some x => k | None => None end)
  (at level 200, x name, e at level 100, k at level 200).
Notation "'let?' ' p ':=' e 'in' k" :=
  (match e with Some p => k | None => None end)
  (at level 200, p pattern, e at level 100, k at level 200).

Definition in_range (c lo hi : ascii) : bool :=
  Nat.leb (nat_of_ascii lo) (nat_of_ascii c) && Nat.leb (nat_of_ascii c) (nat_of_ascii hi).

Definition is_ascii_digit (c : ascii) : bool := in_range c "0" "9".

(** [u8::is_ascii_whitespace]: space, tab, line feed, form feed, return. *)
Definition is_ascii_whitespace (c : ascii) : bool :=
  Ascii.eqb c " " || Ascii.eqb c "009" || Ascii.eqb c "010" || Ascii.eqb c "012"
  || Ascii.eqb c "013".

Definition is_ident_char (c : ascii) : bool :=
  in_range c "a" "z" || in_range c "A" "Z" || Ascii.eqb c "_".

Definition is_hex_digit (c : ascii) : bool :=
  in_range c "0" "9" || in_range c "a" "f" || in_range c "A" "F".

Definition to_ascii_uppercase (c : ascii) : ascii :=
  if in_range c "a" "z" then ascii_of_nat (nat_of_ascii c - 32) else c.

Definition is_int_suffix (c : ascii) : bool :=
  Ascii.eqb c "u" || Ascii.eqb c "U" || Ascii.eqb c "l" || Ascii.eqb c "L".

Definition is_float_suffix (c : ascii) : bool :=
  Ascii.eqb c "f" || Ascii.eqb c "F" || Ascii.eqb c "l" || Ascii.eqb c "L".

(** [String::push] *)
Definition push (s : string) (c : ascii) : string := s ++ String c EmptyString.

Definition quote : ascii := "034"%char.
Definition backslash : ascii := "092"%char.

Fixpoint trim_spaces (fuel : nat) (r : SourceReader) : option SourceReader :=
  match fuel with
  | 0 => None
  | S f => if is_ascii_whitespace (current r) then trim_spaces f (shift r) else Some r
  end.

Fixpoint skip_line (fuel : nat) (r : SourceReader) : option SourceReader :=
  match fuel with
  | 0 => None
  | S f =>
      if negb (Ascii.eqb (current r) "010") && negb (Ascii.eqb (current r) nul)
      then skip_line f (shift r) else Some r
  end.

Fixpoint skip_block (fuel : nat) (r : SourceReader) : option SourceReader :=
  match fuel with
  | 0 => None
  | S f =>
      if Ascii.eqb (current r) nul then Some r
      else if Ascii.eqb (current r) "*" && Ascii.eqb (next r) "/"
      then Some (shift_multiple r 2)
      else skip_block f (shift r)
  end.

Fixpoint trim_comments (fuel : nat) (r : SourceReader) : option SourceReader :=
  match fuel with
  | 0 => None
  | S f =>
      if negb (Ascii.eqb (current r) "/") then Some r
      else if Ascii.eqb (next r) "/" then
        let? r := skip_line f (shift_multiple r 2) in
        let? r := trim_spaces f r in
        trim_comments f r
      else if Ascii.eqb (next r) "*" then
        let? r := skip_block f (shift_multiple r 2) in
        let? r := trim_spaces f r in
        trim_comments f r
      else Some r
  end.

Fixpoint read_identifier_loop (fuel : nat) (r : SourceReader) (id : string)
  : option (SourceReader * string) :=
  match fuel with
  | 0 => None
  | S f =>
      if is_ident_char (current r) then read_identifier_loop f (shift r) (push id (current r))
      else Some (r, id)
  end.

Definition identifier_to_token (id : string) : Token.Token :=
  match id with
  | "auto" => Token.Auto | "break" => Token.Break | "case" => Token.Case
  | "char" => Token.Char | "const" => Token.Const | "continue" => Token.Continue
  | "default" => Token.Default | "do" => Token.Do | "double" => Token.Double
  | "else" => Token.Else | "enum" => Token.Enum | "extern" => Token.Extern
  | "float" => Token.Float | "for" => Token.For | "goto" => Token.Goto
  | "if" => Token.If | "int" => Token.Int | "long" => Token.Long
  | "register" => Token.Register | "return" => Token.Return | "short" => Token.Short
  | "signed" => Token.Signed | "sizeof" => Token.Sizeof | "static" => Token.Static
  | "struct" => Token.Struct | "switch" => Token.Switch | "typedef" => Token.Typedef
  | "union" => Token.Union | "unsigned" => Token.Unsigned | "void" => Token.Void
  | "volatile" => Token.Volatile | "while" => Token.While
  | _ => Token.Identifier id
  end.

Definition read_identifier (fuel : nat) (r : SourceReader) : option (SourceReader * Token.Token) :=
  let? '(r, id) := read_identifier_loop fuel r "" in Some (r, identifier_to_token id).

Fixpoint read_digits (fuel : nat) (r : SourceReader) (id : string)
  : option (SourceReader * string) :=
  match fuel with
  | 0 => None
  | S f =>
      if is_ascii_digit (current r) then read_digits f (shift r) (push id (current r))
      else Some (r, id)
  end.

(** [id.as_bytes()[id.len() - 1]]: [id] is never empty here. *)
Definition last_byte (id : string) : option ascii := String.get (String.length id - 1) id.

Definition read_exponent (fuel : nat) (r : SourceReader) (id : string)
  : option (SourceReader * string) :=
  if negb (Ascii.eqb (current r) "e") && negb (Ascii.eqb (current r) "E") then Some (r, id)
  else
    let id := match last_byte id with
              | Some c => if Ascii.eqb c "." then push id "0" else id
              | None => id
              end in
    let id := push id "e" in
    let r := shift r in
    let '(r, id) :=
      if Ascii.eqb (current r) "+" || Ascii.eqb (current r) "-"
      then (shift r, push id (current r))
      else (r, push id "+") in
    read_digits fuel r id.

Fixpoint skip_int_suffix (fuel : nat) (r : SourceReader) : option SourceReader :=
  match fuel with
  | 0 => None
  | S f => if is_int_suffix (current r) then skip_int_suffix f (shift r) else Some r
  end.

Definition skip_float_suffix (r : SourceReader) : SourceReader :=
  if is_float_suffix (current r) then shift r else r.

Fixpoint read_hex_digits (fuel : nat) (r : SourceReader) (id : string)
  : option (SourceReader * string) :=
  match fuel with
  | 0 => None
  | S f =>
      if is_hex_digit (current r)
      then read_hex_digits f (shift r) (push id (to_ascii_uppercase (current r)))
      else Some (r, id)
  end.

(** The fraction, exponent and suffix of a floating literal whose text so
    far is [id] (the digits after the point are next). *)
Definition read_fraction (fuel : nat) (r : SourceReader) (id : string)
  : option (SourceReader * Token.Token) :=
  let? '(r, id) := read_digits fuel r id in
  let? '(r, id) := read_exponent fuel r id in
  Some (skip_float_suffix r, Token.FloatingLiteral id).

Definition read_number (fuel : nat) (r : SourceReader) : option (SourceReader * Token.Token) :=
  if Ascii.eqb (current r) "0" then
    let r := shift r in
    if is_ascii_digit (current r) then
      (* octal number or decimal starting at 0 *)
      let? '(r, id) := read_digits fuel r "0" in
      if Ascii.eqb (current r) "." then read_fraction fuel (shift r) (push id ".")
      else let? r := skip_int_suffix fuel r in Some (r, Token.IntegerLiteral id)
    else if Ascii.eqb (current r) "x" || Ascii.eqb (current r) "X" then
      (* hex number *)
      let? '(r, id) := read_hex_digits fuel (shift r) "0x" in
      let? r := skip_int_suffix fuel r in
      Some (r, Token.IntegerLiteral id)
    else if Ascii.eqb (current r) "." then
      (* decimal number *)
      read_fraction fuel (shift r) "0."
    else
      (* just zero *)
      let? r := skip_int_suffix fuel r in Some (r, Token.IntegerLiteral "0")
  else if Ascii.eqb (current r) "." then
    read_fraction fuel (shift r) "0."
  else
    let? '(r, id) := read_digits fuel r "" in
    if Ascii.eqb (current r) "." then read_fraction fuel (shift r) (push id ".")
    else if Ascii.eqb (current r) "e" || Ascii.eqb (current r) "E" then
      let? '(r, id) := read_exponent fuel r (id ++ ".0") in
      Some (skip_float_suffix r, Token.FloatingLiteral id)
    else
      let? r := skip_int_suffix fuel r in Some (r, Token.IntegerLiteral id).

Fixpoint read_string_loop (fuel : nat) (r : SourceReader) (content : string)
  : option (SourceReader * string) :=
  match fuel with
  | 0 => None
  | S f =>
      let c := current r in
      if Ascii.eqb c quote then Some (shift r, content)
      else if Ascii.eqb c backslash then
        let r := shift r in
        let c := current r in
        let value := if Ascii.eqb c "0" then nul
                     else if Ascii.eqb c "n" then "010"%char
                     else if Ascii.eqb c "t" then "009"%char
                     else if Ascii.eqb c "r" then "013"%char
                     else c in
        read_string_loop f (shift r) (push content value)
      else read_string_loop f (shift r) (push content c)
  end.

Definition read_string (fuel : nat) (r : SourceReader) : option (SourceReader * Token.Token) :=
  (* First quote *)
  let? '(r, content) := read_string_loop fuel (shift r) "" in
  Some (r, Token.StringLiteral content).

Definition produce (r : SourceReader) (tk : Token.Token) : option (SourceReader * Token.Token) :=
  Some (shift r, tk).

(** The [match self.read.current()] of [Tokenizer::next]. *)
Definition next_token (fuel : nat) (r : SourceReader) : option (SourceReader * Token.Token) :=
  let c := current r in
  let n := next r in
  if is_ident_char c then read_identifier fuel r
  else if is_ascii_digit c then read_number fuel r
  else if Ascii.eqb c "." then
    if is_ascii_digit n then read_number fuel r
    else if Ascii.eqb n "." && Ascii.eqb (next_next r) "." then
      produce (shift_multiple r 2) Token.Ellipsis
    else produce r Token.Dot
  else if Ascii.eqb c quote then read_string fuel r
  else if Ascii.eqb c "(" then produce r Token.LeftParen
  else if Ascii.eqb c ")" then produce r Token.RightParen
  else if Ascii.eqb c "{" then produce r Token.LeftBrace
  else if Ascii.eqb c "}" then produce r Token.RightBrace
  else if Ascii.eqb c "[" then produce r Token.LeftBracket
  else if Ascii.eqb c "]" then produce r Token.RightBracket
  else if Ascii.eqb c "~" then produce r Token.Tilde
  else if Ascii.eqb c "?" then produce r Token.QuestionMark
  else if Ascii.eqb c "<" then
    if Ascii.eqb n "<" && Ascii.eqb (next_next r) "=" then
      produce (shift_multiple r 2) Token.LeftAssign
    else if Ascii.eqb n "<" then produce (shift r) Token.LeftShift
    else if Ascii.eqb n "=" then produce (shift r) Token.LessEquals
    else produce r Token.Less
  else if Ascii.eqb c ">" then
    if Ascii.eqb n ">" && Ascii.eqb (next_next r) "=" then
      produce (shift_multiple r 2) Token.RightAssign
    else if Ascii.eqb n ">" then produce (shift r) Token.RightShift
    else if Ascii.eqb n "=" then produce (shift r) Token.GreaterEquals
    else produce r Token.Greater
  else if Ascii.eqb c ";" then produce r Token.Semicolon
  else if Ascii.eqb c ":" then produce r Token.Colon
  else if Ascii.eqb c "," then produce r Token.Comma
  else if Ascii.eqb c "=" then
    if Ascii.eqb n "=" then produce (shift r) Token.Equals else produce r Token.Assign
  else if Ascii.eqb c "!" then
    if Ascii.eqb n "=" then produce (shift r) Token.NotEquals else produce r Token.Not
  else if Ascii.eqb c "@" then produce r Token.At
  else if Ascii.eqb c "#" then produce r Token.Hash
  else if Ascii.eqb c "$" then produce r Token.Dollar
  else if Ascii.eqb c "%" then
    if Ascii.eqb n "=" then produce (shift r) Token.PercentAssign else produce r Token.Percent
  else if Ascii.eqb c "^" then
    if Ascii.eqb n "=" then produce (shift r) Token.XorAssign else produce r Token.Xor
  else if Ascii.eqb c "&" then
    if Ascii.eqb n "=" then produce (shift r) Token.AndAssign
    else if Ascii.eqb n "&" then produce (shift r) Token.And
    else produce r Token.Ampersand
  else if Ascii.eqb c "|" then
    if Ascii.eqb n "=" then produce (shift r) Token.OrAssign
    else if Ascii.eqb n "|" then produce (shift r) Token.Or
    else produce r Token.Pipe
  else if Ascii.eqb c "*" then
    if Ascii.eqb n "=" then produce (shift r) Token.TimesAssign else produce r Token.Times
  else if Ascii.eqb c "/" then
    if Ascii.eqb n "=" then produce (shift r) Token.DivAssign else produce r Token.Div
  else if Ascii.eqb c "-" then
    if Ascii.eqb n "=" then produce (shift r) Token.MinusAssign
    else if Ascii.eqb n "-" then produce (shift r) Token.MinusMinus
    else if Ascii.eqb n ">" then produce (shift r) Token.Pointer
    else produce r Token.Minus
  else if Ascii.eqb c "+" then
    if Ascii.eqb n "=" then produce (shift r) Token.PlusAssign
    else if Ascii.eqb n "+" then produce (shift r) Token.PlusPlus
    else produce r Token.Plus
  else if Ascii.eqb c nul then produce r Token.Eof
  else produce r (Token.Error c (span r)).

(** [Tokenizer::next] *)
Definition tokenizer_next (fuel : nat) (r : SourceReader)
  : option (SourceReader * (Token.Token * TokenSpan)) :=
  let? r := trim_spaces fuel r in
  let? r := trim_comments fuel r in
  let start := span r in
  let? '(r, ty) := next_token fuel r in
  Some (r, (ty, (start, span r))).



(* ------------------------------------------------------------------ *)
(** ** Literal conversion used by the parser *)

Definition digit_value (c : ascii) : Z := Z.of_nat (nat_of_ascii c - nat_of_ascii "0").

Fixpoint digits_value (s : string) (acc : Z) : option Z :=
  match s with
  | EmptyString => Some acc
  | String c s' => if is_ascii_digit c then digits_value s' (acc * 10 + digit_value c)%Z else None
  end.

(** [str::parse::<i32>]: an optional sign, then at least one decimal digit,
    and the value must fit in 32 bits; anything else is an [Err]. *)
Definition parse_i32 (s : string) : option Z :=
  match s with
  | EmptyString => None
  | String c rest =>
      let is_sign := Ascii.eqb c "+" || Ascii.eqb c "-" in
      if is_sign && String.eqb rest EmptyString then None
      else
        let digits := if is_sign then rest else s in
        let? v := digits_value digits 0 in
        let v := if Ascii.eqb c "-" then (- v)%Z else v in
        if (Z.leb (- 2 ^ 31) v && Z.leb v (2 ^ 31 - 1))%Z then Some v else None
  end.

Fixpoint take_digits (s : string) : string * string :=
  match s with
  | String c s' =>
      if is_ascii_digit c then let '(ds, rest) := take_digits s' in (String c ds, rest)
      else (EmptyString, s)
  | EmptyString => (EmptyString, EmptyString)
  end.

Definition take_sign (s : string) : bool * string :=
  match s with
  | String c s' => if Ascii.eqb c "-" then (true, s') else if Ascii.eqb c "+" then (false, s') else (false, s)
  | EmptyString => (false, s)
  end.

(** [str::parse::<f32>] on decimal text: optional sign, digits with an
    optional point (at least one digit in all), optional exponent with at
    least one digit.  The value is kept as an exact decimal: the rounding to
    the nearest [f32], the overflow to infinity of a text past the [f32]
    range (such as [0.123e+123]) and the special words (inf, nan), which a
    [FloatingLiteral] text never holds, are not modelled. *)
Definition parse_f32 (s : string) : option f32 :=
  let '(neg, s1) := take_sign s in
  let '(ip, s2) := take_digits s1 in
  let '(fp, s3) := match s2 with
                   | String c r => if Ascii.eqb c "." then take_digits r else (EmptyString, s2)
                   | EmptyString => (EmptyString, s2)
                   end in
  if String.eqb (ip ++ fp) EmptyString then None
  else
    let exponent :=
      match s3 with
      | EmptyString => Some 0%Z
      | String c r =>
          if Ascii.eqb c "e" || Ascii.eqb c "E" then
            let '(eneg, r1) := take_sign r in
            let '(ed, r2) := take_digits r1 in
            if String.eqb ed EmptyString || negb (String.eqb r2 EmptyString) then None
            else let? e := digits_value ed 0 in Some (if eneg then (- e)%Z else e)
          else None
      end in
    let? e := exponent in
    let? m := digits_value (ip ++ fp) 0 in
    Some {| f_mantissa := if neg then (- m)%Z else m;
            f_exponent := (e - Z.of_nat (String.length fp))%Z |}.

(* ------------------------------------------------------------------ *)
(** ** Parser ([parser.rs]) *)

Inductive ParseError :=
| Expected (expected found : Token.Token) (span : TokenSpan)
| ExpectedId (found : Token.Token) (span : TokenSpan)
| UnexpectedToken (tk : Token.Token) (span : TokenSpan)
| EOF.

Record Parser := mkParser { tk : SourceReader; plookahead : list (Token.Token * TokenSpan) }.

Definition parser_new (r : SourceReader) : Parser := mkParser r [].

(** The result of a parsing function: [POk] carries the parser state after
    it; [PPanic] is an [unwrap] that fails; [PNoFuel] means the fuel of the
    model ran out. *)
Inductive PResult (A : Type) :=
| POk (x : A)
| PErr (e : ParseError)
| PPanic
| PNoFuel.
Arguments POk {A} x.
Arguments PErr {A} e.
Arguments PPanic {A}.
Arguments PNoFuel {A}.

Notation "'let!' ' p ':=' e 'in' k" :=
  (match e with POk p => k | PErr err => PErr err | PPanic => PPanic | PNoFuel => PNoFuel end)
  (at level 200, p pattern, e at level 100, k at level 200).

Definition lift {A} (o : option A) : PResult A :=
  match o with Some x => POk x | None => PNoFuel end.

Definition zero_span : TokenSpan := ({| line := 0; column := 0 |}, {| line := 0; column := 0 |}).

Section Primitives.
(** fuel given to each call of the tokenizer *)
Variable tk_fuel : nat.

Definition push_token (p : Parser) : option Parser :=
  let? '(r, t) := tokenizer_next tk_fuel (tk p) in
  Some (mkParser r (plookahead p ++ [t])).

(** [while self.lookahead.len() <= index { push_back(tk.next()) }] with
    [index = n - 1]: afterwards the lookahead holds at least [n] tokens. *)
Fixpoint fill_n (n : nat) (p : Parser) : option Parser :=
  match n with
  | 0 => Some p
  | S m =>
      let? p := fill_n m p in
      if Nat.leb (length (plookahead p)) m then push_token p else Some p
  end.

Definition p_current (p : Parser) : option (Parser * Token.Token) :=
  let? p := fill_n 1 p in
  Some (p, match plookahead p with t :: _ => fst t | [] => Token.Eof end).

Definition p_pop (p : Parser) : option (Parser * (Token.Token * TokenSpan)) :=
  let? p := fill_n 1 p in
  match plookahead p with
  | t :: rest => Some (mkParser (tk p) rest, t)
  | [] => Some (p, (Token.Eof, zero_span))
  end.

Definition p_current_pos (p : Parser) : option (Parser * TokenSpan) :=
  let? p := fill_n 1 p in
  Some (p, match plookahead p with t :: _ => snd t | [] => zero_span end).

Definition p_at (p : Parser) (index : nat) : option (Parser * Token.Token) :=
  let? p := fill_n (S index) p in
  Some (p, match nth_error (plookahead p) index with Some t => fst t | None => Token.Eof end).

Definition p_next (p : Parser) : Parser := mkParser (tk p) (tl (plookahead p)).

Definition p_expect (p : Parser) (t : Token.Token) : PResult (Parser * unit) :=
  let! '(p, c) := lift (p_current p) in
  if negb (Token.eqb c t) then
    let! '(p, pos) := lift (p_current_pos p) in PErr (Expected t c pos)
  else POk (p_next p, tt).

Definition p_skip (p : Parser) (t : Token.Token) : option (Parser * bool) :=
  let? '(p, c) := p_current p in
  if negb (Token.eqb c t) then Some (p, false) else Some (p_next p, true).

Definition p_expect_id (p : Parser) : PResult (Parser * string) :=
  let! '(p, (t, span)) := lift (p_pop p) in
  match t with
  | Token.Identifier name => POk (p, name)
  | _ => PErr (ExpectedId t span)
  end.
End Primitives.

Section Parsing.
Variable tk_fuel : nat.

Definition cur (p : Parser) : PResult (Parser * Token.Token) := lift (p_current tk_fuel p).
Definition skip (p : Parser) (t : Token.Token) : PResult (Parser * bool) :=
  lift (p_skip tk_fuel p t).
Definition expect := p_expect tk_fuel.
Definition expect_id := p_expect_id tk_fuel.

Definition PExpr := Parser -> PResult (Parser * Expression).

Definition expression_first (p : Parser) : PResult (Parser * bool) :=
  let! '(p, c) := cur p in
  POk (p, match c with
          | Token.IntegerLiteral _ | Token.FloatingLiteral _ | Token.StringLiteral _
          | Token.Identifier _ | Token.Minus | Token.Plus | Token.Not | Token.Return
          | Token.LeftBrace | Token.LeftParen | Token.LeftBracket => true
          | _ => false
          end).

(** The loop of [parse_expression_1] .. [parse_expression_6]: [ops] is the
    [match p.current()] of the level, [lower] the level below. *)
Fixpoint binary_loop (ops : Token.Token -> option Operator.Operator) (lower : PExpr)
  (fuel : nat) (p : Parser) (expr : Expression) : PResult (Parser * Expression) :=
  match fuel with
  | 0 => PNoFuel
  | S f =>
      let! '(p, c) := cur p in
      match ops c with
      | None => POk (p, expr)
      | Some op =>
          let! '(p, rhs) := lower (p_next p) in
          binary_loop ops lower f p (EOperator op expr rhs)
      end
  end.

Definition parse_level ops (lower : PExpr) (fuel : nat) : PExpr :=
  fun p => let! '(p, expr) := lower p in binary_loop ops lower fuel p expr.

Definition ops_6 (t : Token.Token) : option Operator.Operator :=
  match t with Token.And => Some Operator.And | Token.Or => Some Operator.Or
          | Token.Xor => Some Operator.Xor | _ => None end.
Definition ops_5 (t : Token.Token) : option Operator.Operator :=
  match t with Token.Equals => Some Operator.Equals
          | Token.NotEquals => Some Operator.NotEquals | _ => None end.
Definition ops_4 (t : Token.Token) : option Operator.Operator :=
  match t with Token.Less => Some Operator.Less | Token.Greater => Some Operator.Greater
          | Token.LessEquals => Some Operator.LessEquals
          | Token.GreaterEquals => Some Operator.GreaterEquals | _ => None end.
Definition ops_3 (t : Token.Token) : option Operator.Operator :=
  match t with Token.Plus => Some Operator.Plus | Token.Minus => Some Operator.Minus
          | _ => None end.
Definition ops_2 (t : Token.Token) : option Operator.Operator :=
  match t with Token.Times => Some Operator.Times | Token.Div => Some Operator.Div
          | Token.Percent => Some Operator.Rem | _ => None end.
Definition ops_1 (t : Token.Token) : option Operator.Operator :=
  match t with Token.Ampersand => Some Operator.BiteAnd | Token.Pipe => Some Operator.BiteOr
          | _ => None end.

(** [while p.current() != Dot && p.current() != Eof && expression_first(p)
    { args.push(parse_expression(p)?) }] ([p.current()] does not change the
    state once the lookahead is filled, so it is read once). *)
Fixpoint dot_args (pe : PExpr) (fuel : nat) (p : Parser) (args : list Expression)
  : PResult (Parser * list Expression) :=
  match fuel with
  | 0 => PNoFuel
  | S f =>
      let! '(p, c) := cur p in
      if Token.eqb c Token.Dot || Token.eqb c Token.Eof then POk (p, args) else
      let! '(p, b) := expression_first p in
      if negb b then POk (p, args) else
      let! '(p, e) := pe p in
      dot_args pe f p (args ++ [e])
  end.

Fixpoint dot_loop (pe : PExpr) (fuel : nat) (p : Parser) (expr : Expression)
  : PResult (Parser * Expression) :=
  match fuel with
  | 0 => PNoFuel
  | S f =>
      let! '(p, b) := skip p Token.Dot in
      if negb b then POk (p, expr) else
      let! '(p, name) := expect_id p in
      let! '(p, args) := dot_args pe fuel p [expr] in
      dot_loop pe f p (EFunCall name args)
  end.

Definition parse_expression_0 (pe base : PExpr) (fuel : nat) : PExpr :=
  fun p => let! '(p, expr) := base p in dot_loop pe fuel p expr.

(** The argument loop of an identifier: it stops after an argument that is
    not followed by a comma. *)
Fixpoint identifier_args (pe : PExpr) (fuel : nat) (p : Parser) (args : list Expression)
  : PResult (Parser * list Expression) :=
  match fuel with
  | 0 => PNoFuel
  | S f =>
      let! '(p, c) := cur p in
      if Token.eqb c Token.Dot || Token.eqb c Token.Eof then POk (p, args) else
      let! '(p, b) := expression_first p in
      if negb b then POk (p, args) else
      let! '(p, e) := pe p in
      let args := args ++ [e] in
      let! '(p, b) := skip p Token.Comma in
      if negb b then POk (p, args) else identifier_args pe f p args
  end.

(** The scan of [{ a, b | ...]: [index] walks the lookahead; the
    parameters are kept only if a [|] closes the list. *)
Fixpoint lambda_params (fuel : nat) (p : Parser) (index : nat) (args : list string)
  : PResult (Parser * list string) :=
  match fuel with
  | 0 => PNoFuel
  | S f =>
      let! '(p, nxt) := lift (p_at tk_fuel p index) in
      let index := S index in
      match nxt with
      | Token.Identifier name =>
          let args := args ++ [name] in
          let! '(p, sep) := lift (p_at tk_fuel p index) in
          let index := S index in
          if Token.eqb sep Token.Pipe then POk (Nat.iter index p_next p, args)
          else if negb (Token.eqb sep Token.Comma) then POk (p, [])
          else lambda_params f p index args
      | _ => POk (p, [])
      end
  end.

Fixpoint lambda_body (ps : Parser -> PResult (Parser * Statement)) (fuel : nat) (p : Parser)
  (code : list Statement) : PResult (Parser * list Statement) :=
  match fuel with
  | 0 => PNoFuel
  | S f =>
      let! '(p, c) := cur p in
      if Token.eqb c Token.RightBrace then POk (p_next p, code)
      else if Token.eqb c Token.Eof then PErr EOF
      else
        let! '(p, stm) := ps p in
        let! '(p, c) := cur p in
        let p := if Token.eqb c Token.Comma then p_next p else p in
        lambda_body ps f p (code ++ [stm])
  end.

(** The element loops of tuples ([close] = [RightParen]) and lists
    ([close] = [RightBracket]). *)
Fixpoint delimited (pe : PExpr) (close : Token.Token) (fuel : nat) (p : Parser)
  (items : list Expression) : PResult (Parser * list Expression) :=
  match fuel with
  | 0 => PNoFuel
  | S f =>
      let! '(p, c) := cur p in
      if Token.eqb c close then POk (p_next p, items)
      else if Token.eqb c Token.Eof then PErr EOF
      else
        let! '(p, e) := pe p in
        let! '(p, c) := cur p in
        let p := if Token.eqb c Token.Comma then p_next p else p in
        delimited pe close f p (items ++ [e])
  end.

(** [parse_expression_base]: [pe] is [parse_expression] and [ps] is
    [parse_statement] (both with less fuel).  [parser.rs] spells the two
    literal arms [Token::IntLiteral] and [Token::FloatLiteral], names the
    [Token] enum does not declare (it has [IntegerLiteral] and
    [FloatingLiteral]), so as written the crate does not build; the model
    reads these arms as the tokenizer's two literal tokens. *)
Definition parse_expression_base (pe : PExpr) (ps : Parser -> PResult (Parser * Statement))
  (fuel : nat) : PExpr :=
  fun p =>
  let! '(p, (token, span)) := lift (p_pop tk_fuel p) in
  match token with
  | Token.Minus => let! '(p, e) := pe p in POk (p, EUnaryOperator UnaryOperator.Minus e)
  | Token.Plus => let! '(p, e) := pe p in POk (p, EUnaryOperator UnaryOperator.Plus e)
  | Token.Not => let! '(p, e) := pe p in POk (p, EUnaryOperator UnaryOperator.Not e)
  | Token.IntegerLiteral text =>
      (* text.parse::<i32>().unwrap() *)
      match parse_i32 text with Some v => POk (p, EInt v) | None => PPanic end
  | Token.FloatingLiteral text =>
      (* text.parse::<f32>().unwrap() *)
      match parse_f32 text with Some v => POk (p, EFloat v) | None => PPanic end
  | Token.StringLiteral text => POk (p, EString text)
  | Token.Identifier name =>
      let! '(p, args) := identifier_args pe fuel p [] in POk (p, EFunCall name args)
  | Token.Return => let! '(p, e) := pe p in POk (p, EReturn e)
  | Token.LeftBrace =>
      (* Lambda *)
      let! '(p, args) := lambda_params fuel p 0 [] in
      let! '(p, code) := lambda_body ps fuel p [] in
      POk (p, ELambda args code)
  | Token.LeftParen =>
      (* Tuple *)
      let! '(p, values) := delimited pe Token.RightParen fuel p [] in
      match values with
      | [v] => POk (p, v)
      | _ => POk (p, ETuple values)
      end
  | Token.LeftBracket =>
      (* List *)
      let! '(p, items) := delimited pe Token.RightBracket fuel p [] in
      POk (p, EList items)
  | it => PErr (UnexpectedToken it span)
  end.

Definition parse_variable (pe : PExpr) (p : Parser) : PResult (Parser * Statement) :=
  let! '(p, name) := expect_id p in
  let! '(p, _) := expect p Token.Assign in
  let! '(p, value) := pe p in
  POk (p, SVariable name value).

Fixpoint variant_properties_loop (fuel : nat) (p : Parser) (props : list string)
  : PResult (Parser * list string) :=
  match fuel with
  | 0 => PNoFuel
  | S f =>
      let! '(p, prop) := expect_id p in
      let props := props ++ [prop] in
      let! '(p, c) := cur p in
      match c with
      | Token.Comma =>
          let! '(p, b) := skip (p_next p) Token.RightParen in
          if b then POk (p, props) else variant_properties_loop f p props
      | Token.RightParen => POk (p_next p, props)
      | _ =>
          let! '(p, c) := cur p in
          let! '(p, pos) := lift (p_current_pos tk_fuel p) in
          PErr (Expected Token.RightParen c pos)
      end
  end.

Definition parse_typedef_variant (fuel : nat) (p : Parser) : PResult (Parser * TypeDefVariant) :=
  let! '(p, name) := expect_id p in
  let! '(p, b) := skip p Token.LeftParen in
  let! '(p, properties) := if b then variant_properties_loop fuel p [] else POk (p, []) in
  POk (p, {| variant_name := name; variant_properties := properties |}).

Fixpoint typedef_variants_loop (fuel : nat) (p : Parser) (vs : list TypeDefVariant)
  : PResult (Parser * list TypeDefVariant) :=
  match fuel with
  | 0 => PNoFuel
  | S f =>
      let! '(p, v) := parse_typedef_variant fuel p in
      let vs := vs ++ [v] in
      let! '(p, c) := cur p in
      if negb (Token.eqb c Token.Pipe) then POk (p, vs) else
      let! '(p, _) := expect p Token.Pipe in
      typedef_variants_loop f p vs
  end.

Definition parse_typedef (fuel : nat) (p : Parser) : PResult (Parser * TypeDef) :=
  let! '(p, _) := expect p Token.Typedef in
  let! '(p, name) := expect_id p in
  let! '(p, _) := expect p Token.Assign in
  let! '(p, variants) := typedef_variants_loop fuel p [] in
  POk (p, {| typedef_name := name; variants := variants |}).

Fixpoint skip_semicolons (fuel : nat) (p : Parser) : PResult Parser :=
  match fuel with
  | 0 => PNoFuel
  | S f =>
      let! '(p, c) := cur p in
      if Token.eqb c Token.Semicolon then skip_semicolons f (p_next p) else POk p
  end.

Definition parse_statement_with (pe : PExpr) (fuel : nat) (p : Parser)
  : PResult (Parser * Statement) :=
  let! ' p := skip_semicolons fuel p in
  let! '(p, t0) := lift (p_at tk_fuel p 0) in
  let! '(p, is_variable) :=
    match t0 with
    | Token.Identifier _ =>
        let! '(p, t1) := lift (p_at tk_fuel p 1) in
        POk (p, match t1 with Token.Assign => true | _ => false end)
    | _ => POk (p, false)
    end in
  if is_variable then parse_variable pe p else
  let! '(p, t0) := lift (p_at tk_fuel p 0) in
  match t0 with
  | Token.Typedef => let! '(p, d) := parse_typedef fuel p in POk (p, STypeDef d)
  | _ => let! '(p, e) := pe p in POk (p, SExpression e)
  end.

(** [parse_expression] = [parse_expression_6]; every level is given the
    same [fuel] for its loops, and the recursive calls from
    [parse_expression_base] get one unit less. *)
Fixpoint parse_expression (fuel : nat) : PExpr :=
  match fuel with
  | 0 => fun _ => PNoFuel
  | S f =>
      let pe := parse_expression f in
      let ps := parse_statement_with pe f in
      let e0 := parse_expression_0 pe (parse_expression_base pe ps f) f in
      let e1 := parse_level ops_1 e0 f in
      let e2 := parse_level ops_2 e1 f in
      let e3 := parse_level ops_3 e2 f in
      let e4 := parse_level ops_4 e3 f in
      let e5 := parse_level ops_5 e4 f in
      parse_level ops_6 e5 f
  end.

Definition parse_statement (fuel : nat) : Parser -> PResult (Parser * Statement) :=
  parse_statement_with (parse_expression fuel) fuel.

Fixpoint program_loop (fuel loops : nat) (p : Parser) (stmts : list Statement)
  : PResult (Parser * list Statement) :=
  match loops with
  | 0 => PNoFuel
  | S l =>
      let! '(p, c) := cur p in
      if Token.eqb c Token.Eof then POk (p, stmts) else
      let! '(p, s) := parse_statement fuel p in
      let! '(p, _) := skip p Token.Semicolon in
      program_loop fuel l p (stmts ++ [s])
  end.

Definition parse_program (fuel : nat) (p : Parser) : PResult (Parser * Program) :=
  let! '(p, stmts) := program_loop fuel fuel p [] in
  POk (p, {| statements := stmts |}).
End Parsing.

(** [main]: source text to parsed program, with one fuel for every loop. *)
Definition parse_source (fuel : nat) (code : string) : PResult Program :=
  let! '(_, prog) := parse_program fuel fuel (parser_new (reader_new code)) in POk prog.

(** The outcome of [main]: a panic of the parser ([expect] on a parse
    error included), or the run of the compiled program. *)
Inductive MainResult :=
| ParsePanic
| ParseFailed (e : ParseError)
| ParseNoFuel
| Ran (o : Outcome Value).

Definition main_result (fuel : nat) (code : string) : MainResult :=
  match parse_source fuel code with
  | POk prog => Ran (run fuel main_runtime (compile prog))
  | PErr e => ParseFailed e
  | PPanic => ParsePanic
  | PNoFuel => ParseNoFuel
  end.

(* ================================================================== *)
(** * Properties of the runtime and the compiler *)


(** Setting several variables one after the other, as a run of [Set]s does. *)
Fixpoint env_set_all (env : Env) (names : list string) (vals : list Value) : Env :=
  match names, vals with
  | n :: names', v :: vals' => env_set_all (env_set env n v) names' vals'
  | _, _ => env
  end.

Fixpoint insert_all (m : list (string * Value)) (names : list string) (vals : list Value)
  : list (string * Value) :=
  match names, vals with
  | n :: names', v :: vals' => insert_all (map_insert String.eqb n v m) names' vals'
  | _, _ => m
  end.

(** A compiled function extends another: same arity, code only appended. *)
Definition extends (node node' : CompiledFunction) : Prop :=
  args node' = args node /\ exists suf, code node' = code node ++ suf.

(** The state of a [SourceReader] created on [code] and shifted [k] times:
    the lookahead holds the bytes [k, k+1, ...] of [code] (0 past its end),
    and the not yet delivered part of the buffer is the next slice of
    [code]. *)
Definition reader_inv (code : list ascii) (k : nat) (r : SourceReader) : Prop :=
  src_code r = code /\ length (buffer r) = BUFFER_SIZE /\
  lookahead r = map (fun i => nth i code nul) (seq k (length (lookahead r))) /\
  (eof r = true -> length code + 1 <= k + length (lookahead r)) /\
  (eof r = false ->
     pos r <= count r /\ count r <= src_offset r /\ src_offset r <= length code /\
     count r <= BUFFER_SIZE /\
     k + length (lookahead r) + count r = src_offset r + pos r /\
     forall j, j < count r ->
       nth j (buffer r) nul = nth (src_offset r - count r + j) code nul).


(** The reader of [code] after [k] calls of [shift]. *)
Definition reader_at (code : string) (k : nat) : SourceReader := Nat.iter k shift (reader_new code).

(** Bytes [k .. k + n - 1] of [c] (0 past its end), as a string. *)
Definition slice (c : list ascii) (k n : nat) : string :=
  string_of_list_ascii (map (fun i => nth i c nul) (seq k n)).

(** The same bytes, each through [to_ascii_uppercase]. *)
Definition upper_slice (c : list ascii) (k n : nat) : string :=
  string_of_list_ascii (map (fun i => to_ascii_uppercase (nth i c nul)) (seq k n)).

(** The instance class that [register_type] and the [TypeDef] statement build
    for a variant with id [id]. *)
Definition variant_class (def : TypeDef) (id : N) (v : TypeDefVariant) : InstanceClass :=
  {| class_id := id; class_typedef := def; class_variant := variant_name v;
     class_properties := variant_properties v |}.

(** [Some] of all the values when every option is [Some]. *)
Fixpoint all_some {A} (l : list (option A)) : option (list A) :=
  match l with
  | [] => Some []
  | o :: l' => let? x := o in let? xs := all_some l' in Some (x :: xs)
  end.

(** The value of an expression built only from literals, lists and tuples:
    the value the compiled code leaves on the stack.  A list or tuple holds
    its items in reverse order, as the VM pops them. *)
Fixpoint const_value (e : Expression) : option Value :=
  match e with
  | EInt v => Some (VInt v)
  | EFloat v => Some (VFloat v)
  | EString s => Some (VString s)
  | EList items => let? vs := all_some (map const_value items) in Some (VList (rev vs))
  | ETuple vals => let? vs := all_some (map const_value vals) in Some (VTuple (rev vs))
  | _ => None
  end.

(** An expression built only from literals, lists and tuples. *)
Fixpoint is_constant (e : Expression) : bool :=
  match e with
  | EInt _ | EFloat _ | EString _ => true
  | EList items | ETuple items => forallb is_constant items
  | _ => false
  end.

(** The ids of a compiled function's nested functions, at every depth. *)
Fixpoint all_ids (f : CompiledFunction) : list N :=
  flat_map (fun '(id, g) => id :: all_ids g) (functions f).

(** A compilation step from [(c, node)] to [r]: the id counter never
    decreases, new nested function ids come from the counter, and distinct
    ids stay distinct. *)
Definition ids_step (c : Compiler) (node : CompiledFunction) (r : Compiler * CompiledFunction)
  : Prop :=
  (next_id c <= next_id (fst r))%N /\
  (forall x, In x (all_ids (snd r)) -> In x (all_ids node) \/ (next_id c <= x < next_id (fst r))%N) /\
  ((forall x, In x (all_ids node) -> (x < next_id c)%N) -> NoDup (all_ids node) ->
   NoDup (all_ids (snd r))).

(** A class table keyed by variant names, as [Compiler] builds it. *)
Definition keyed_by_variant (m : list (string * InstanceClass)) : Prop :=
  Forall (fun kc => class_variant (snd kc) = fst kc) m /\ NoDup (map fst m).

(* ================================================================== *)
(** * Lemmas on the VM *)

Lemma pop_n_app : forall vs pre acc,
  pop_n (length vs) (pre ++ vs) acc = Some (pre, acc ++ rev vs).
Proof.
  induction vs as [|x vs IH] using rev_ind; intros pre acc; simpl.
  - rewrite !app_nil_r. reflexivity.
  - rewrite length_app, Nat.add_comm. simpl.
    rewrite app_assoc, vec_pop_app, IH, rev_app_distr. simpl.
    rewrite <- app_assoc. reflexivity.
Qed.

Lemma pop_n_short : forall n stack acc,
  length stack < n -> pop_n n stack acc = None.
Proof.
  induction n as [|n IH]; intros stack acc H; [lia|].
  destruct stack as [|x stack] using rev_ind.
  - reflexivity.
  - simpl. rewrite vec_pop_app. apply IH. rewrite length_app in H. simpl in H. lia.
Qed.

Lemma frames_get_app : forall lower top name,
  frames_get (rev (lower ++ [top])) name =
  match map_get String.eqb name (variables top) with
  | Some v => Some v
  | None => frames_get (rev lower) name
  end.
Proof. intros. rewrite rev_app_distr. reflexivity. Qed.

Lemma env_set_app : forall lower top name v,
  env_set {| frames := lower ++ [top] |} name v =
  {| frames := lower ++ [set_variable top name v] |}.
Proof.
  intros. unfold env_set. simpl. rewrite rev_app_distr. simpl.
  rewrite rev_involutive. reflexivity.
Qed.

Lemma env_set_all_app : forall names vals lower top,
  env_set_all {| frames := lower ++ [top] |} names vals =
  {| frames := lower ++
       [{| variables := insert_all (variables top) names vals;
           frame_functions := frame_functions top;
           frame_instance_classes := frame_instance_classes top;
           id_to_class := id_to_class top |}] |}.
Proof.
  induction names as [|n names IH]; intros vals lower top.
  - destruct top; reflexivity.
  - destruct vals as [|v vals]; [destruct top; reflexivity|].
    simpl. rewrite env_set_app, IH. reflexivity.
Qed.

Lemma insert_all_notin : forall names vals m k,
  ~ In k names -> map_get String.eqb k (insert_all m names vals) = map_get String.eqb k m.
Proof.
  induction names as [|n names IH]; intros vals m k Hk; [reflexivity|].
  destruct vals as [|v vals]; [reflexivity|]. simpl.
  rewrite IH by (intro; apply Hk; now right).
  rewrite (map_get_insert _ string_eqb_spec).
  destruct (String.eqb k n) eqn:E; [|reflexivity].
  apply String.eqb_eq in E. exfalso. apply Hk. now left.
Qed.

Lemma insert_all_nth : forall names vals m j,
  NoDup names -> length names = length vals -> j < length names ->
  map_get String.eqb (nth j names "") (insert_all m names vals) = Some (nth j vals VUnit).
Proof.
  induction names as [|n names IH]; intros vals m j Hnd Hlen Hj; [simpl in Hj; lia|].
  destruct vals as [|v vals]; [discriminate|].
  inversion Hnd as [|? ? Hn Hnd']; subst. simpl in Hlen, Hj.
  destruct j as [|j]; simpl.
  - rewrite insert_all_notin by exact Hn.
    rewrite (map_get_insert _ string_eqb_spec), String.eqb_refl. reflexivity.
  - apply IH; auto; lia.
Qed.

(** Running a prologue [Set q1; ...; Set qn] over a stack whose top
    [n] values are [rev us]: [qi] receives [ui]. *)
Lemma run_sets : forall qs us pre body fuel rt env,
  length qs = length us ->
  run_code (length qs + fuel) rt env (map ISet qs ++ body) (pre ++ rev us) =
  run_code fuel rt (env_set_all env qs us) body pre.
Proof.
  induction qs as [|q qs IH]; intros us pre body fuel rt env Hlen.
  - destruct us; [|discriminate]. rewrite app_nil_r. reflexivity.
  - destruct us as [|u us]; [discriminate|]. simpl in Hlen |- *.
    rewrite app_assoc, vec_pop_app. apply IH. lia.
Qed.

Lemma extends_refl : forall n, extends n n.
Proof. intros n. split; [reflexivity|]. exists []. now rewrite app_nil_r. Qed.

Lemma extends_trans : forall a b c, extends a b -> extends b c -> extends a c.
Proof.
  intros a b c [Ha [s1 H1]] [Hb [s2 H2]]. split; [congruence|].
  exists (s1 ++ s2). rewrite H2, H1, app_assoc. reflexivity.
Qed.

Lemma extends_push_code : forall n i, extends n (push_code n i).
Proof. intros n i. split; [reflexivity|]. exists [i]. reflexivity. Qed.

Lemma extends_insert_function : forall n id f, extends n (insert_function n id f).
Proof. intros. split; [reflexivity|]. exists []. simpl. now rewrite app_nil_r. Qed.

Lemma compile_variants_extends : forall vs c node def,
  extends node (snd (compile_variants c node def vs)).
Proof.
  induction vs as [|v vs IH]; intros c node def; simpl; [apply extends_refl|].
  eapply extends_trans; [|apply IH].
  split; [reflexivity|]. exists []. simpl. now rewrite app_nil_r.
Qed.

Create HintDb compile.
#[local] Hint Resolve extends_refl extends_push_code extends_insert_function : compile.

(** Compiling into a function only appends to its code. *)
Fixpoint compile_expression_extends (e : Expression) {struct e} :
  forall c node, extends node (snd (compile_expression c node e))
with compile_statement_extends (s : Statement) {struct s} :
  forall c node, extends node (snd (compile_statement c node s)).
Proof.
  - assert (Hall : forall es c node,
      extends node (snd ((fix compile_all (c : Compiler) (node : CompiledFunction)
                            (es : list Expression) : Compiler * CompiledFunction :=
                            match es with
                            | [] => (c, node)
                            | e :: es' => let (c1, n1) := compile_expression c node e in
                                          compile_all c1 n1 es'
                            end) c node es))).
    { fix go 1. intros [|e' es'] c node; [apply extends_refl|].
      cbn beta iota. specialize (compile_expression_extends e' c node).
      destruct (compile_expression c node e') as [c1 n1].
      eapply extends_trans; [exact compile_expression_extends|]. apply go. }
    destruct e as [v|v|v|name es|op l r|op e1|items|vals|ps body|e1];
      intros c node; simpl.
    + auto with compile.
    + auto with compile.
    + auto with compile.
    + specialize (Hall es c node).
      destruct (_ c node es) as [c1 n1]; simpl in *.
      eapply extends_trans; [exact Hall|auto with compile].
    + pose proof (compile_expression_extends l c node) as H1.
      destruct (compile_expression c node l) as [c1 n1]; simpl in *.
      pose proof (compile_expression_extends r c1 n1) as H2.
      destruct (compile_expression c1 n1 r) as [c2 n2]; simpl in *.
      eapply extends_trans; [exact H1|]. eapply extends_trans; [exact H2|auto with compile].
    + specialize (compile_expression_extends e1 c node).
      destruct (compile_expression c node e1) as [c1 n1]; simpl.
      eapply extends_trans; [exact compile_expression_extends|auto with compile].
    + specialize (Hall items c node).
      destruct (_ c node items) as [c1 n1]; simpl in *.
      eapply extends_trans; [exact Hall|auto with compile].
    + specialize (Hall vals c node).
      destruct (_ c node vals) as [c1 n1]; simpl in *.
      eapply extends_trans; [exact Hall|auto with compile].
    + destruct (_ c _ body) as [c1 l1]. simpl.
      eapply extends_trans; [apply extends_insert_function|apply extends_push_code].
    + specialize (compile_expression_extends e1 c node).
      destruct (compile_expression c node e1) as [c1 n1]; simpl.
      eapply extends_trans; [exact compile_expression_extends|auto with compile].
  - destruct s; intros c node; simpl.
    + specialize (compile_expression_extends value c node).
      destruct (compile_expression c node value) as [c1 n1]; simpl.
      eapply extends_trans; [exact compile_expression_extends|auto with compile].
    + apply compile_expression_extends.
    + apply compile_variants_extends.
Qed.

(** The function compiled from a lambda: arity = number of parameters, and a
    prologue of [Set]s over the parameters in reverse order. *)
Lemma compile_lambda_shape : forall c node ps body,
  exists id f suf,
    code (snd (compile_expression c node (ELambda ps body))) = code node ++ [IFunction id] /\
    map_get N.eqb id (functions (snd (compile_expression c node (ELambda ps body)))) = Some f /\
    args f = length ps /\ code f = map ISet (rev ps) ++ suf.
Proof.
  intros c node ps body. simpl.
  assert (Hbody : forall ss c node,
    extends node (snd ((fix compile_body (c : Compiler) (node : CompiledFunction)
                          (ss : list Statement) : Compiler * CompiledFunction :=
                          match ss with
                          | [] => (c, node)
                          | s :: ss' => let (c1, n1) := compile_statement c node s in
                                        compile_body c1 n1 ss'
                          end) c node ss))).
  { induction ss as [|s ss IH]; intros c' node'; [apply extends_refl|].
    cbn beta iota. pose proof (compile_statement_extends s c' node') as Hs.
    destruct (compile_statement c' node' s) as [c1 n1].
    eapply extends_trans; [exact Hs|apply IH]. }
  specialize (Hbody body c (mkCompiledFunction (length ps) (map ISet (rev ps)) [] [])).
  destruct (_ c _ body) as [c1 lam]. destruct Hbody as [Ha [suf Hc]].
  simpl in Ha, Hc.
  exists (next_id c1), lam, suf. simpl. repeat split; auto.
  rewrite (map_get_insert _ N_eqb_spec), N.eqb_refl. reflexivity.
Qed.

(* ================================================================== *)
(** * Claims about the VM *)

(** C1.  Calling a closure compiled from a lambda with parameters [ps] on a
    stack whose top [length ps] values were pushed as [vs] (evaluation order):
    the caller pops them in reverse, the callee's prologue binds the
    parameters in reverse declared order, and the net effect is that the
    [i]-th declared parameter holds the [(n-1-i)]-th evaluated argument: the
    first parameter receives the last argument.  The bindings live in the
    fresh frame of the call, which is popped afterwards. *)
Theorem call_binds_first_param_to_last_argument :
  forall c node ps body id f fuel rt env name pre vs rest,
  code (snd (compile_expression c node (ELambda ps body))) = code node ++ [IFunction id] ->
  map_get N.eqb id (functions (snd (compile_expression c node (ELambda ps body)))) = Some f ->
  env_get env name = Some (VFunction id) ->
  env_get_function env id = Some f ->
  NoDup ps ->
  length vs = length ps ->
  exists env_body body_code,
    run_code (S (length ps + fuel)) rt env (ICall name :: rest) (pre ++ vs) =
      bind (run_code fuel rt env_body body_code []) (fun r =>
        match env_pop (fst r) with
        | None => Panic
        | Some env' => run_code (length ps + fuel) rt env' rest (pre ++ [snd r])
        end) /\
    env_pop env_body = Some env /\
    (forall i, i < length ps ->
       env_get env_body (nth i ps "") = Some (nth (length ps - 1 - i) vs VUnit)).
Proof.
  intros c node ps body id f fuel rt env name pre vs rest Hcode Hfun Hget Hgetf Hnd Hlen.
  destruct (compile_lambda_shape c node ps body) as (id0 & f0 & suf & Hc & Hf & Ha & Hcf).
  rewrite Hcode in Hc. apply app_inj_tail in Hc as [_ Hid]. injection Hid as ->.
  rewrite Hfun in Hf. injection Hf as Hf. subst f0.
  exists (env_set_all (env_push env f) (rev ps) vs), suf.
  assert (Hpush : exists top, env_push env f = {| frames := frames env ++ [top] |}
                  /\ variables top = []).
  { eexists. split; reflexivity. }
  destruct Hpush as [top [Hpush Htop]].
  split; [|split].
  - simpl. rewrite Hget, Hgetf, Ha, <- Hlen, pop_n_app. simpl.
    unfold run_function. rewrite Hcf, Hlen.
    pose proof (run_sets (rev ps) vs [] suf fuel rt (env_push env f)) as Hs.
    rewrite length_rev in Hs. simpl in Hs. rewrite Hs by lia.
    reflexivity.
  - rewrite Hpush, env_set_all_app. unfold env_pop. simpl.
    rewrite vec_pop_app. destruct env. reflexivity.
  - intros i Hi. rewrite Hpush, env_set_all_app. unfold env_get. simpl.
    rewrite frames_get_app. simpl. rewrite Htop.
    assert (Hn : nth i ps "" = nth (length ps - 1 - i) (rev ps) "").
    { rewrite rev_nth by lia. f_equal. lia. }
    rewrite Hn, insert_all_nth.
    + reflexivity.
    + apply NoDup_rev, Hnd.
    + rewrite length_rev. congruence.
    + rewrite length_rev. lia.
Qed.

(** A root function holding the lambda [{ p, q | }] under id 0, and an
    environment in which [f] names it. *)
Definition two_param_node : CompiledFunction :=
  snd (compile_expression {| next_id := 0%N |} (mkCompiledFunction 0 [] [] [])
         (ELambda ["p"; "q"] [])).

Definition two_param_fn : CompiledFunction :=
  match map_get N.eqb 0%N (functions two_param_node) with
  | Some f => f
  | None => two_param_node
  end.

Definition two_param_env : Env :=
  env_set (env_push {| frames := [] |} two_param_node) "f" (VFunction 0%N).

(** C1 at [f a b] with [a = 1], [b = 2]: [p] receives [2], [q] receives [1]. *)
Lemma call_binds_first_param_to_last_argument_witness :
  exists env_body,
    env_get env_body "p" = Some (VInt 2) /\ env_get env_body "q" = Some (VInt 1).
Proof.
  destruct (call_binds_first_param_to_last_argument
              {| next_id := 0%N |} (mkCompiledFunction 0 [] [] []) ["p"; "q"] [] 0%N
              two_param_fn 3 main_runtime two_param_env "f" [] [VInt 1; VInt 2] [])
    as (env_body & body_code & _ & _ & Hget).
  - vm_compute. reflexivity.
  - vm_compute. reflexivity.
  - vm_compute. reflexivity.
  - vm_compute. reflexivity.
  - constructor; [simpl; intros [H|H]; [discriminate|contradiction]|].
    constructor; [simpl; tauto|constructor].
  - reflexivity.
  - exists env_body. split.
    + apply (Hget 0). simpl. lia.
    + apply (Hget 1). simpl. lia.
Defined.

(** C2.  Reading a name ([Env::get], and [Env::get_instance_class] for type
    constructors) looks at the topmost frame first and falls through to the
    frames below it, down to the bottom of the stack; [Env::set] rewrites
    the topmost frame only and leaves every frame below it unchanged. *)
Theorem env_reads_whole_stack_writes_top :
  forall lower top name v,
  env_get {| frames := lower ++ [top] |} name =
    match map_get String.eqb name (variables top) with
    | Some x => Some x
    | None => env_get {| frames := lower |} name
    end /\
  env_get_instance_class {| frames := lower ++ [top] |} name =
    match map_get String.eqb name (frame_instance_classes top) with
    | Some x => Some x
    | None => env_get_instance_class {| frames := lower |} name
    end /\
  env_set {| frames := lower ++ [top] |} name v =
    {| frames := lower ++ [set_variable top name v] |} /\
  env_get (env_set {| frames := lower ++ [top] |} name v) name = Some v.
Proof.
  intros lower top name v. repeat split.
  - apply frames_get_app.
  - unfold env_get_instance_class. simpl. rewrite rev_app_distr. reflexivity.
  - apply env_set_app.
  - rewrite env_set_app. unfold env_get. simpl. rewrite frames_get_app. simpl.
    rewrite (map_get_insert _ string_eqb_spec), String.eqb_refl. reflexivity.
Qed.

(** C3.  [Call(name)] resolves [name] in a fixed order, first match wins:
    a variable of any live frame (a closure is invoked, any other value is
    pushed), then a type constructor of any live frame, then a native
    function, then a native type constructor; otherwise [UndefinedName]. *)
Theorem call_resolution_order :
  forall fuel rt env name rest stack,
  (forall id f stack' argv,
     env_get env name = Some (VFunction id) ->
     env_get_function env id = Some f ->
     pop_n (args f) stack [] = Some (stack', argv) ->
     run_code (S fuel) rt env (ICall name :: rest) stack =
       bind (run_code fuel rt (env_push env f) (code f) argv) (fun r =>
         match env_pop (fst r) with
         | None => Panic
         | Some env' => run_code fuel rt env' rest (stack' ++ [snd r])
         end)) /\
  (forall v,
     env_get env name = Some v -> (forall id, v <> VFunction id) ->
     run_code (S fuel) rt env (ICall name :: rest) stack =
       run_code fuel rt env rest (stack ++ [v])) /\
  (forall c stack' props,
     env_get env name = None ->
     env_get_instance_class env name = Some c ->
     pop_n (length (class_properties c)) stack [] = Some (stack', props) ->
     run_code (S fuel) rt env (ICall name :: rest) stack =
       run_code fuel rt env rest (stack' ++ [VInstance (class_id c) props])) /\
  (forall f stack' argv,
     env_get env name = None ->
     env_get_instance_class env name = None ->
     map_get String.eqb name (builtin_functions rt) = Some f ->
     pop_n (bargs f) stack [] = Some (stack', argv) ->
     run_code (S fuel) rt env (ICall name :: rest) stack =
       bind (func f argv) (fun r => run_code fuel rt env rest (stack' ++ [r]))) /\
  (forall c stack' props,
     env_get env name = None ->
     env_get_instance_class env name = None ->
     map_get String.eqb name (builtin_functions rt) = None ->
     map_get String.eqb name (builtin_instance_classes rt) = Some c ->
     pop_n (length (class_properties c)) stack [] = Some (stack', props) ->
     run_code (S fuel) rt env (ICall name :: rest) stack =
       run_code fuel rt env rest (stack' ++ [VInstance (class_id c) props])) /\
  (env_get env name = None ->
     env_get_instance_class env name = None ->
     map_get String.eqb name (builtin_functions rt) = None ->
     map_get String.eqb name (builtin_instance_classes rt) = None ->
     run_code (S fuel) rt env (ICall name :: rest) stack = Error (UndefinedName name)).
Proof.
  intros fuel rt env name rest stack.
  repeat split; intros; simpl; repeat match goal with H : _ = _ |- _ => rewrite H; clear H end;
    try reflexivity.
  destruct v; try reflexivity. exfalso. eapply H0. reflexivity.
Qed.

(** C4 (as the code behaves).  [List(n)] and [Tuple(n)] pop the top [n]
    values one by one into a fresh vector without reversing it: the
    container holds the pushed values in reverse order.  So the program
    [[1, 2, 3]] evaluates to the list [3, 2, 1], and [(1, 2)] to the tuple
    [(2, 1)]. *)
Theorem list_tuple_pop_order :
  (forall fuel rt env rest pre vs,
   run_code (S fuel) rt env (IList (length vs) :: rest) (pre ++ vs) =
     run_code fuel rt env rest (pre ++ [VList (rev vs)]) /\
   run_code (S fuel) rt env (ITuple (length vs) :: rest) (pre ++ vs) =
     run_code fuel rt env rest (pre ++ [VTuple (rev vs)])) /\
  main_result 50 "[1, 2, 3]" = Ran (Done (VList [VInt 3; VInt 2; VInt 1])) /\
  main_result 50 "(1, 2)" = Ran (Done (VTuple [VInt 2; VInt 1])).
Proof.
  split; [| split; vm_compute; reflexivity].
  intros. split; simpl; rewrite pop_n_app; reflexivity.
Qed.

(** C6.  A name bound nowhere fails with [UndefinedName], whatever the
    operand stack holds (even when it is empty): nothing is popped before
    resolution succeeds, so the error is never [StackUnderflow]. *)
Theorem undefined_name_not_underflow :
  forall fuel rt env name rest stack,
  env_get env name = None ->
  env_get_instance_class env name = None ->
  map_get String.eqb name (builtin_functions rt) = None ->
  map_get String.eqb name (builtin_instance_classes rt) = None ->
  run_code (S fuel) rt env (ICall name :: rest) stack = Error (UndefinedName name) /\
  run_code (S fuel) rt env (ICall name :: rest) stack <> Error StackUnderflow.
Proof.
  intros fuel rt env name rest stack H1 H2 H3 H4.
  assert (H : run_code (S fuel) rt env (ICall name :: rest) stack = Error (UndefinedName name))
    by (simpl; rewrite H1, H2, H3, H4; reflexivity).
  split; [exact H|]. rewrite H. discriminate.
Qed.

Lemma undefined_name_not_underflow_witness :
  run_code 1 main_runtime (env_push {| frames := [] |} (mkCompiledFunction 0 [] [] []))
    [ICall "foo"] [] = Error (UndefinedName "foo").
Proof.
  apply (undefined_name_not_underflow 0 main_runtime
           (env_push {| frames := [] |} (mkCompiledFunction 0 [] [] [])) "foo" [] []);
    vm_compute; reflexivity.
Defined.

(** Calling a closure value whose id is in the lambda table of no live
    frame panics on the [unwrap] of [Env::get_function]. *)
Lemma call_unreachable_closure_panics :
  forall fuel rt env name id rest stack,
  env_get env name = Some (VFunction id) ->
  env_get_function env id = None ->
  run_code (S fuel) rt env (ICall name :: rest) stack = Panic.
Proof. intros fuel rt env name id rest stack H1 H2. simpl. rewrite H1, H2. reflexivity. Qed.

(* ================================================================== *)
(** * Properties of the tokenizer, the parser and whole programs *)

Lemma shift_after_eof : forall r x rest,
  eof r = true -> lookahead r = x :: rest -> length rest = 2 ->
  eof (shift r) = true /\ lookahead (shift r) = rest ++ [nul].
Proof.
  intros [code off la buf cnt ps sp e] x rest He Hl Hlen; simpl in *; subst.
  destruct rest as [|a [|b [|c rest]]]; simpl in Hlen; try discriminate.
  unfold shift, fill_lookahead; simpl.
  destruct (Nat.leb cnt ps); simpl; auto.
Qed.

(** Once the source is exhausted, the lookahead only ever receives [0]
    bytes, and the string loop has no arm that stops on them. *)
Lemma read_string_loop_no_close : forall fuel r content,
  eof r = true -> length (lookahead r) = 3 ->
  Forall (fun c => Ascii.eqb c quote = false /\ Ascii.eqb c backslash = false) (lookahead r) ->
  read_string_loop fuel r content = None.
Proof.
  induction fuel as [|fuel IH]; intros r content He Hlen Hall; [reflexivity |].
  destruct (lookahead r) as [|x rest] eqn:Hl; [discriminate |].
  inversion Hall as [|? ? [Hq Hb] Hrest]; subst.
  simpl. unfold current. rewrite Hl. simpl. rewrite Hq, Hb.
  simpl in Hlen. injection Hlen as Hlen.
  destruct (shift_after_eof r x rest He Hl Hlen) as [He' Hl'].
  apply IH; [assumption | rewrite Hl', length_app; simpl; lia |].
  rewrite Hl'. apply Forall_app. split; [assumption |].
  constructor; [split; reflexivity | constructor].
Qed.

(** C7 (as the code behaves).  The string loop of the lexer, once the
    source is exhausted and no closing quote is left in the lookahead, never
    ends, whatever the fuel; in particular the lexer never returns a token
    on the input made of a double-quote character, then [ab], then the end
    of the input. *)
Theorem unterminated_string_diverges :
  (forall fuel r content,
   eof r = true -> length (lookahead r) = 3 ->
   Forall (fun c => Ascii.eqb c quote = false /\ Ascii.eqb c backslash = false) (lookahead r) ->
   read_string_loop fuel r content = None) /\
  (forall fuel, tokenizer_next fuel (reader_new (String quote "ab")) = None).
Proof.
  split; [exact read_string_loop_no_close |].
  intros [|fuel]; [reflexivity |].
  cbv -[read_string_loop].
  rewrite read_string_loop_no_close; [reflexivity | reflexivity | reflexivity |].
  repeat constructor.
Qed.

(** C5 (as the code behaves).  The argument loop of an identifier call stops
    at the first argument not followed by a comma, so
    [typedef Pair = Pair(a, b); Pair 1 2] is parsed as [Pair(1)] followed by
    the statement [2]; the constructor then pops two properties from a stack
    holding one value and the run fails with [StackUnderflow].  Written with
    a comma, [Pair 1, 2] builds an instance of class 0 (every builtin class
    id is at least 100000) whose properties are [2, 1]: the pop loop does not
    restore the declared order. *)
Theorem pair_constructor_example :
  parse_source 50 "typedef Pair = Pair(a, b); Pair 1 2" =
    POk {| statements :=
             [STypeDef {| typedef_name := "Pair";
                          variants := [{| variant_name := "Pair";
                                          variant_properties := ["a"; "b"] |}] |};
              SExpression (EFunCall "Pair" [EInt 1]);
              SExpression (EInt 2)] |} /\
  main_result 50 "typedef Pair = Pair(a, b); Pair 1 2" = Ran (Error StackUnderflow) /\
  main_result 50 "typedef Pair = Pair(a, b); Pair 1, 2" =
    Ran (Done (VInstance 0 [VInt 2; VInt 1])) /\
  forallb (fun kc => N.leb 100000 (class_id (snd kc))) (builtin_instance_classes main_runtime)
    = true.
Proof. repeat split; vm_compute; reflexivity. Qed.


(** C9.  A closure value called when no live frame holds its id in its
    lambda table panics on the [unwrap] of [Env::get_function]; the program
    [make = { { 1 } }; f = make; f] does so: the inner lambda is in the
    table of the frame of [make], popped when [make] returns. *)
Theorem closure_escaping_definer_panics :
  (forall fuel rt env name id rest stack,
   env_get env name = Some (VFunction id) ->
   env_get_function env id = None ->
   run_code (S fuel) rt env (ICall name :: rest) stack = Panic) /\
  parse_source 50 "make = { { 1 } }; f = make; f" =
    POk {| statements :=
             [SVariable "make" (ELambda [] [SExpression (ELambda [] [SExpression (EInt 1)])]);
              SVariable "f" (EFunCall "make" []);
              SExpression (EFunCall "f" [])] |} /\
  main_result 50 "make = { { 1 } }; f = make; f" = Ran Panic.
Proof.
  split; [exact call_unreachable_closure_panics |].
  split; vm_compute; reflexivity.
Qed.

Lemma string_app_assoc : forall a b c : string, ((a ++ b) ++ c)%string = (a ++ (b ++ c))%string.
Proof. induction a as [|x a IH]; intros; simpl; [reflexivity | rewrite IH; reflexivity]. Qed.

Lemma string_app_nil_r : forall a : string, (a ++ EmptyString)%string = a.
Proof. induction a as [|x a IH]; simpl; [reflexivity | rewrite IH; reflexivity]. Qed.



(* ================================================================== *)
(** * The source reader and the tokenizer on a string source *)

Lemma map_seq_snoc : forall (f : nat -> ascii) k n,
  map f (seq k n) ++ [f (k + n)] = map f (seq k (S n)).
Proof. intros. rewrite seq_S, map_app. reflexivity. Qed.

Lemma la_push : forall code k la b,
  la = map (fun i => nth i code nul) (seq k (length la)) ->
  b = nth (k + length la) code nul ->
  la ++ [b] = map (fun i => nth i code nul) (seq k (length la + 1)).
Proof.
  intros code k la b H Hb. rewrite Nat.add_1_r, <- map_seq_snoc, <- H, Hb. reflexivity.
Qed.

Ltac reader_lengths :=
  rewrite ?length_app, ?length_firstn, ?length_skipn; cbn [length]; unfold BUFFER_SIZE in *.

Lemma fill_round_inv : forall code k r,
  reader_inv code k r ->
  let r1 := if Nat.leb (count r) (pos r) then set_pos (fill_buffer r) 0 else r in
  let r2 := if negb (eof r1)
            then set_pos (push_back r1 (nth (pos r1) (buffer r1) nul)) (S (pos r1))
            else push_back r1 nul in
  reader_inv code k r2 /\ length (lookahead r2) = S (length (lookahead r)).
Proof.
  intros code k [code' off la buf cnt ps sp e] H.
  destruct H as (Hc & Hb & Hla & He & Hne); cbn [negb src_code buffer lookahead eof pos count src_offset] in *.
  subst code'.
  destruct e.
  - (* the source is exhausted: a 0 is pushed *)
    specialize (He eq_refl).
    assert (Hn : nul = nth (k + length la) code nul) by (rewrite nth_overflow by lia; reflexivity).
    destruct (Nat.leb cnt ps);
      unfold fill_buffer, set_pos, push_back, reader_inv; cbn [negb src_code buffer lookahead eof pos count src_offset];
      reader_lengths; (split; [| lia]);
      (split; [reflexivity | split; [assumption | split; [apply la_push; assumption | split; [intros; lia | discriminate]]]]).
  - destruct (Hne eq_refl) as (Hp & Hco & Hol & Hc64 & Hidx & Hw). clear He Hne.
    destruct (Nat.leb cnt ps) eqn:Hle.
    + apply Nat.leb_le in Hle. assert (ps = cnt) by lia. subst ps.
      unfold fill_buffer. cbn [eof src_code src_offset buffer lookahead count pos span].
      remember (min BUFFER_SIZE (length (skipn off code))) as ls eqn:Els.
      assert (Hls : ls = min 64 (length code - off)) by (rewrite Els, length_skipn; reflexivity).
      clear Els.
      destruct (Nat.eqb ls 0) eqn:Hz; cbn [negb eof pos buffer].
      * apply Nat.eqb_eq in Hz.
        assert (off = length code) by (unfold BUFFER_SIZE in *; lia).
        assert (Hn : nul = nth (k + length la) code nul) by (rewrite nth_overflow by lia; reflexivity).
        unfold push_back, set_pos, reader_inv; cbn [negb src_code buffer lookahead eof pos count src_offset].
        reader_lengths. split; [| lia].
        split; [reflexivity | split; [lia | split; [apply la_push; assumption | split; [intros; lia | discriminate]]]].
      * apply Nat.eqb_neq in Hz.
        assert (Hx : nth 0 (firstn ls (skipn off code) ++ skipn ls buf) nul = nth (k + length la) code nul).
        { rewrite app_nth1 by (reader_lengths; lia).
          rewrite nth_firstn. replace (Nat.ltb 0 ls) with true by (symmetry; apply Nat.ltb_lt; lia).
          rewrite nth_skipn. f_equal. lia. }
        unfold push_back, set_pos, reader_inv; cbn [negb src_code buffer lookahead eof pos count src_offset].
        reader_lengths. split; [| lia].
        split; [reflexivity | split; [lia | split; [apply la_push; assumption | split; [discriminate |]]]].
        intros _.
        split; [lia | split; [lia | split; [lia | split; [lia | split; [lia |]]]]].
        intros j Hj. rewrite app_nth1 by (reader_lengths; lia).
        rewrite nth_firstn. replace (Nat.ltb j ls) with true by (symmetry; apply Nat.ltb_lt; lia).
        rewrite nth_skipn. f_equal. lia.
    + apply Nat.leb_gt in Hle.
      assert (Hx : nth ps buf nul = nth (k + length la) code nul) by (rewrite Hw by lia; f_equal; lia).
      unfold push_back, set_pos, reader_inv; cbn [negb src_code buffer lookahead eof pos count src_offset].
      reader_lengths. split; [| lia].
      split; [reflexivity | split; [assumption | split; [apply la_push; assumption | split; [discriminate |]]]].
      intros _.
      split; [lia | split; [lia | split; [lia | split; [lia | split; [lia | exact Hw]]]]].
Qed.

Lemma fill_loop_inv : forall n code k r,
  reader_inv code k r -> length (lookahead r) <= LOOKAHEAD_AMOUNT ->
  LOOKAHEAD_AMOUNT <= length (lookahead r) + n ->
  reader_inv code k (fill_lookahead_loop n r) /\
  length (lookahead (fill_lookahead_loop n r)) = LOOKAHEAD_AMOUNT.
Proof.
  induction n as [| n IH]; intros code k r H H1 H2.
  - cbn [fill_lookahead_loop]. split; [assumption | lia].
  - cbn [fill_lookahead_loop]. destruct (Nat.ltb (length (lookahead r)) LOOKAHEAD_AMOUNT) eqn:Hlt.
    + apply Nat.ltb_lt in Hlt. destruct (fill_round_inv code k r H) as [Hi Hl].
      apply IH; [exact Hi | lia | lia].
    + apply Nat.ltb_ge in Hlt. split; [assumption | lia].
Qed.

Lemma shift_inv : forall code k r,
  reader_inv code k r -> length (lookahead r) = LOOKAHEAD_AMOUNT ->
  reader_inv code (S k) (shift r) /\ length (lookahead (shift r)) = LOOKAHEAD_AMOUNT.
Proof.
  intros code k [code' off la buf cnt ps sp e] H Hl.
  unfold LOOKAHEAD_AMOUNT in *. cbn [lookahead] in Hl.
  unfold shift, fill_lookahead. cbn [src_code src_offset lookahead buffer count pos eof].
  apply fill_loop_inv; cbn [lookahead]; [| rewrite length_tl; unfold LOOKAHEAD_AMOUNT; lia
                                          | rewrite length_tl; unfold LOOKAHEAD_AMOUNT; lia].
  destruct H as (Hc & Hb & Hla & He & Hne); cbn [src_code buffer lookahead eof pos count src_offset] in *.
  destruct la as [| a la]; [discriminate |]. cbn [length] in Hl.
  unfold reader_inv; cbn [src_code buffer lookahead eof pos count src_offset tl length].
  cbn [length seq map] in Hla. injection Hla as _ Hla.
  split; [exact Hc | split; [exact Hb | split; [exact Hla | split]]].
  - intros He'. specialize (He He'). cbn [length] in He. lia.
  - intros He'. destruct (Hne He') as (? & ? & ? & ? & ? & ?). cbn [length] in *.
    repeat (split; [lia |]). assumption.
Qed.

Lemma reader_new_inv : forall code,
  reader_inv (list_ascii_of_string code) 0 (reader_new code) /\
  length (lookahead (reader_new code)) = LOOKAHEAD_AMOUNT.
Proof.
  intros code. unfold reader_new, fill_lookahead.
  apply fill_loop_inv; cbn [lookahead length]; unfold LOOKAHEAD_AMOUNT; try lia.
  unfold reader_inv; cbn [src_code buffer lookahead eof pos count src_offset length seq map].
  split; [reflexivity | split; [apply repeat_length | split; [reflexivity | split]]].
  - discriminate.
  - intros _. repeat (split; [lia |]). intros j Hj. lia.
Qed.

Lemma shifts_inv : forall code k,
  reader_inv (list_ascii_of_string code) k (Nat.iter k shift (reader_new code)) /\
  length (lookahead (Nat.iter k shift (reader_new code))) = LOOKAHEAD_AMOUNT.
Proof.
  intros code. induction k as [| k IH].
  - apply reader_new_inv.
  - cbn [Nat.iter]. destruct IH as [Hi Hl]. apply shift_inv; assumption.
Qed.

Lemma shifts_eof : forall code k,
  eof (Nat.iter k shift (reader_new code)) =
  Nat.leb (length (list_ascii_of_string code)) (S (S k)).
Proof.
  intros code k. destruct (shifts_inv code k) as [H Hl].
  remember (Nat.iter k shift (reader_new code)) as r eqn:Er. clear Er.
  unfold LOOKAHEAD_AMOUNT in Hl.
  destruct H as (Hc & Hb & Hla & He & Hne).
  destruct (eof r) eqn:E.
  - specialize (He eq_refl). symmetry. apply Nat.leb_le. lia.
  - destruct (Hne eq_refl) as (? & ? & ? & ? & ? & ?). symmetry. apply Nat.leb_gt. lia.
Qed.

Lemma shifts_lookahead : forall code k,
  lookahead (Nat.iter k shift (reader_new code)) =
  map (fun i => nth i (list_ascii_of_string code) nul) [k; S k; S (S k)].
Proof.
  intros code k. destruct (shifts_inv code k) as [(Hc & _ & Hla & _) Hl].
  unfold LOOKAHEAD_AMOUNT in Hl. rewrite Hla, Hl. reflexivity.
Qed.



(** X1: after [k] shifts, the reader's three-byte window [current], [next],
    [next_next] holds the source bytes [k], [k+1], [k+2] (0 past the end),
    and [eof] is set exactly when the source has at most [k+2] bytes. *)
Theorem reader_window_after_shifts : forall code k,
  let c := list_ascii_of_string code in
  let r := Nat.iter k shift (reader_new code) in
  current r = nth k c nul /\ next r = nth (S k) c nul /\ next_next r = nth (S (S k)) c nul /\
  eof r = Nat.leb (length c) (S (S k)).
Proof.
  intros code k c r. unfold current, next, next_next, r.
  rewrite shifts_lookahead, shifts_eof. repeat split.
Qed.






Lemma current_at : forall code k, current (reader_at code k) = nth k (list_ascii_of_string code) nul.
Proof. intros code k. unfold current, next, next_next, reader_at. rewrite shifts_lookahead. reflexivity. Qed.

Lemma next_at : forall code k, next (reader_at code k) = nth (S k) (list_ascii_of_string code) nul.
Proof. intros code k. unfold current, next, next_next, reader_at. rewrite shifts_lookahead. reflexivity. Qed.

Lemma next_next_at : forall code k,
  next_next (reader_at code k) = nth (S (S k)) (list_ascii_of_string code) nul.
Proof. intros code k. unfold current, next, next_next, reader_at. rewrite shifts_lookahead. reflexivity. Qed.

Lemma shift_at : forall code k, shift (reader_at code k) = reader_at code (S k).
Proof. reflexivity. Qed.

Lemma slice_S : forall c k n, slice c k (S n) = String (nth k c nul) (slice c (S k) n).
Proof. reflexivity. Qed.

Lemma push_app : forall id a s, (push id a ++ s)%string = (id ++ String a s)%string.
Proof. intros. unfold push. rewrite string_app_assoc. reflexivity. Qed.

Lemma read_identifier_loop_at : forall code n k fuel id,
  let c := list_ascii_of_string code in
  n < fuel ->
  (forall i, i < n -> is_ident_char (nth (k + i) c nul) = true) ->
  is_ident_char (nth (k + n) c nul) = false ->
  read_identifier_loop fuel (reader_at code k) id = Some (reader_at code (k + n), (id ++ slice c k n)%string).
Proof.
  intros code n. induction n as [| n IH]; intros k fuel id c Hf Hin Hout;
    (destruct fuel as [| f]; [lia |]); cbn [read_identifier_loop]; rewrite current_at; fold c.
  - rewrite Nat.add_0_r in Hout. rewrite Hout, Nat.add_0_r. cbn. rewrite string_app_nil_r. reflexivity.
  - assert (H0 := Hin 0 ltac:(lia)). rewrite Nat.add_0_r in H0. rewrite H0.
    rewrite shift_at, (IH (S k) f); [| lia | | ].
    + rewrite slice_S, push_app. replace (S k + n) with (k + S n) by lia. reflexivity.
    + intros i Hi. replace (S k + i) with (k + S i) by lia. apply Hin. lia.
    + replace (S k + n) with (k + S n) by lia. exact Hout.
Qed.

Lemma trim_spaces_at : forall code n k fuel,
  let c := list_ascii_of_string code in
  n < fuel ->
  (forall i, i < n -> is_ascii_whitespace (nth (k + i) c nul) = true) ->
  is_ascii_whitespace (nth (k + n) c nul) = false ->
  trim_spaces fuel (reader_at code k) = Some (reader_at code (k + n)).
Proof.
  intros code n. induction n as [| n IH]; intros k fuel c Hf Hin Hout;
    (destruct fuel as [| f]; [lia |]); cbn [trim_spaces]; rewrite current_at; fold c.
  - rewrite Nat.add_0_r in *. rewrite Hout. reflexivity.
  - assert (H0 := Hin 0 ltac:(lia)). rewrite Nat.add_0_r in H0. rewrite H0.
    rewrite shift_at, (IH (S k) f); [| lia | | ].
    + replace (S k + n) with (k + S n) by lia. reflexivity.
    + intros i Hi. replace (S k + i) with (k + S i) by lia. apply Hin. lia.
    + replace (S k + n) with (k + S n) by lia. exact Hout.
Qed.

Lemma ident_char_not_space : forall a, is_ident_char a = true ->
  is_ascii_whitespace a = false /\ Ascii.eqb a "/" = false /\ Ascii.eqb a nul = false.
Proof.
  intros a. destruct a as [[|] [|] [|] [|] [|] [|] [|] [|]]; vm_compute;
    intros H; first [discriminate H | repeat split].
Qed.

(** When the current byte is neither white space nor a slash, a call of the
    tokenizer is one [next_token] step, starting at the current span. *)
Lemma tokenizer_next_plain : forall fuel r,
  is_ascii_whitespace (current r) = false -> Ascii.eqb (current r) "/" = false ->
  tokenizer_next (S fuel) r =
  let? '(r', ty) := next_token (S fuel) r in Some (r', (ty, (span r, span r'))).
Proof.
  intros fuel r Hw Hs. unfold tokenizer_next. cbn [trim_spaces trim_comments].
  rewrite Hw. cbn [negb]. destruct fuel; cbn [trim_comments]; rewrite Hs; reflexivity.
Qed.

(** X3: a maximal run of [n > 0] letters and underscores at position [k]
    is read as one token: the keyword it spells, or an [Identifier] holding
    it; the reader ends right after the run, and the token's span runs from
    the span at [k] to the span at [k + n]. *)
Theorem identifier_token_at : forall code k n fuel,
  let c := list_ascii_of_string code in
  0 < n -> n < fuel ->
  (forall i, i < n -> is_ident_char (nth (k + i) c nul) = true) ->
  is_ident_char (nth (k + n) c nul) = false ->
  tokenizer_next fuel (reader_at code k) =
  Some (reader_at code (k + n),
        (identifier_to_token (slice c k n), (span (reader_at code k), span (reader_at code (k + n))))).
Proof.
  intros code k n fuel c Hn Hf Hin Hout.
  assert (H0 := Hin 0 Hn). rewrite Nat.add_0_r in H0.
  destruct (ident_char_not_space _ H0) as (Hw & Hs & _).
  destruct fuel as [| f]; [lia |].
  rewrite tokenizer_next_plain by (rewrite current_at; assumption).
  unfold next_token. rewrite current_at. fold c. rewrite H0.
  unfold read_identifier. rewrite (read_identifier_loop_at code n k (S f) "") by assumption.
  reflexivity.
Qed.

(** X4: white space in front of a token is skipped: reading a token at [k]
    gives the same token, span and reader as reading it where the run of
    [n] white-space bytes ends. *)
Theorem whitespace_skipped_at : forall code k n fuel,
  let c := list_ascii_of_string code in
  n < fuel ->
  (forall i, i < n -> is_ascii_whitespace (nth (k + i) c nul) = true) ->
  is_ascii_whitespace (nth (k + n) c nul) = false ->
  tokenizer_next fuel (reader_at code k) = tokenizer_next fuel (reader_at code (k + n)).
Proof.
  intros code k n fuel c Hf Hin Hout. unfold tokenizer_next.
  rewrite (trim_spaces_at code n k fuel) by assumption.
  rewrite (trim_spaces_at code 0 (k + n) fuel) by (try lia; rewrite Nat.add_0_r; assumption).
  rewrite Nat.add_0_r. reflexivity.
Qed.

(** X5: a 0 byte, inside the source or past its end, reads as [Eof]: the
    token is [Eof] and nothing after it is looked at. *)
Theorem nul_byte_is_eof : forall code k fuel,
  nth k (list_ascii_of_string code) nul = nul ->
  tokenizer_next (S fuel) (reader_at code k) =
  Some (reader_at code (S k), (Token.Eof, (span (reader_at code k), span (reader_at code (S k))))).
Proof.
  intros code k fuel H.
  rewrite tokenizer_next_plain by (rewrite current_at, H; reflexivity).
  unfold next_token. rewrite current_at, next_at, H. cbv -[produce reader_at]. 
  unfold produce. rewrite shift_at. reflexivity.
Qed.

Lemma read_digits_at : forall code n k fuel id,
  let c := list_ascii_of_string code in
  n < fuel ->
  (forall i, i < n -> is_ascii_digit (nth (k + i) c nul) = true) ->
  is_ascii_digit (nth (k + n) c nul) = false ->
  read_digits fuel (reader_at code k) id = Some (reader_at code (k + n), (id ++ slice c k n)%string).
Proof.
  intros code n. induction n as [| n IH]; intros k fuel id c Hf Hin Hout;
    (destruct fuel as [| f]; [lia |]); cbn [read_digits]; rewrite current_at; fold c.
  - rewrite Nat.add_0_r in Hout. rewrite Hout, Nat.add_0_r. unfold slice, upper_slice; cbn [seq map string_of_list_ascii]. rewrite string_app_nil_r. reflexivity.
  - assert (H0 := Hin 0 ltac:(lia)). rewrite Nat.add_0_r in H0. rewrite H0.
    rewrite shift_at, (IH (S k) f); [| lia | | ].
    + rewrite slice_S, push_app. replace (S k + n) with (k + S n) by lia. reflexivity.
    + intros i Hi. replace (S k + i) with (k + S i) by lia. apply Hin. lia.
    + replace (S k + n) with (k + S n) by lia. exact Hout.
Qed.

Lemma read_hex_digits_at : forall code n k fuel id,
  let c := list_ascii_of_string code in
  n < fuel ->
  (forall i, i < n -> is_hex_digit (nth (k + i) c nul) = true) ->
  is_hex_digit (nth (k + n) c nul) = false ->
  read_hex_digits fuel (reader_at code k) id =
  Some (reader_at code (k + n), (id ++ upper_slice c k n)%string).
Proof.
  intros code n. induction n as [| n IH]; intros k fuel id c Hf Hin Hout;
    (destruct fuel as [| f]; [lia |]); cbn [read_hex_digits]; rewrite current_at; fold c.
  - rewrite Nat.add_0_r in Hout. rewrite Hout, Nat.add_0_r. unfold slice, upper_slice; cbn [seq map string_of_list_ascii]. rewrite string_app_nil_r. reflexivity.
  - assert (H0 := Hin 0 ltac:(lia)). rewrite Nat.add_0_r in H0. rewrite H0.
    rewrite shift_at, (IH (S k) f); [| lia | | ].
    + rewrite push_app. replace (S k + n) with (k + S n) by lia. reflexivity.
    + intros i Hi. replace (S k + i) with (k + S i) by lia. apply Hin. lia.
    + replace (S k + n) with (k + S n) by lia. exact Hout.
Qed.

Lemma skip_int_suffix_at : forall code m k fuel,
  let c := list_ascii_of_string code in
  m < fuel ->
  (forall i, i < m -> is_int_suffix (nth (k + i) c nul) = true) ->
  is_int_suffix (nth (k + m) c nul) = false ->
  skip_int_suffix fuel (reader_at code k) = Some (reader_at code (k + m)).
Proof.
  intros code m. induction m as [| m IH]; intros k fuel c Hf Hin Hout;
    (destruct fuel as [| f]; [lia |]); cbn [skip_int_suffix]; rewrite current_at; fold c.
  - rewrite Nat.add_0_r in *. rewrite Hout. reflexivity.
  - assert (H0 := Hin 0 ltac:(lia)). rewrite Nat.add_0_r in H0. rewrite H0.
    rewrite shift_at, (IH (S k) f); [| lia | | ].
    + replace (S k + m) with (k + S m) by lia. reflexivity.
    + intros i Hi. replace (S k + i) with (k + S i) by lia. apply Hin. lia.
    + replace (S k + m) with (k + S m) by lia. exact Hout.
Qed.

Lemma read_string_loop_at : forall code n k fuel content,
  let c := list_ascii_of_string code in
  n < fuel ->
  (forall i, i < n -> Ascii.eqb (nth (k + i) c nul) quote = false /\
                      Ascii.eqb (nth (k + i) c nul) backslash = false) ->
  nth (k + n) c nul = quote ->
  read_string_loop fuel (reader_at code k) content =
  Some (reader_at code (S (k + n)), (content ++ slice c k n)%string).
Proof.
  intros code n. induction n as [| n IH]; intros k fuel content c Hf Hin Hout;
    (destruct fuel as [| f]; [lia |]); cbn [read_string_loop]; rewrite current_at; fold c.
  - rewrite Nat.add_0_r in *. rewrite Hout, Ascii.eqb_refl, shift_at. unfold slice; cbn [seq map string_of_list_ascii].
    rewrite string_app_nil_r. reflexivity.
  - destruct (Hin 0 ltac:(lia)) as [Hq Hb]. rewrite Nat.add_0_r in Hq, Hb. rewrite Hq, Hb.
    rewrite shift_at, (IH (S k) f); [| lia | | ].
    + rewrite slice_S, push_app. replace (S k + n) with (k + S n) by lia. reflexivity.
    + intros i Hi. replace (S k + i) with (k + S i) by lia. apply Hin. lia.
    + replace (S k + n) with (k + S n) by lia. exact Hout.
Qed.

Lemma digit_char_facts : forall a, is_ascii_digit a = true ->
  is_ident_char a = false /\ is_ascii_whitespace a = false /\ Ascii.eqb a "/" = false /\
  Ascii.eqb a "." = false.
Proof.
  intros a. destruct a as [[|] [|] [|] [|] [|] [|] [|] [|]]; vm_compute;
    intros H; first [discriminate H | repeat split].
Qed.

(** X6: a double-quote character at [k], then [n] bytes that are neither a
    double-quote character nor a backslash, then a closing double-quote
    character, is read as a [StringLiteral] holding those [n] bytes, and
    the reader ends after the closing quote. *)
Theorem string_literal_at : forall code k n fuel,
  let c := list_ascii_of_string code in
  nth k c nul = quote -> n < S fuel ->
  (forall i, i < n -> Ascii.eqb (nth (S k + i) c nul) quote = false /\
                      Ascii.eqb (nth (S k + i) c nul) backslash = false) ->
  nth (S k + n) c nul = quote ->
  tokenizer_next (S fuel) (reader_at code k) =
  Some (reader_at code (S (S k + n)),
        (Token.StringLiteral (slice c (S k) n),
         (span (reader_at code k), span (reader_at code (S (S k + n)))))).
Proof.
  intros code k n fuel c Hq Hf Hin Hout.
  rewrite tokenizer_next_plain by (rewrite current_at; fold c; rewrite Hq; reflexivity).
  unfold next_token. rewrite current_at. fold c. rewrite Hq. cbv -[read_string reader_at].
  unfold read_string. rewrite shift_at, (read_string_loop_at code n (S k) (S fuel) "") by assumption.
  reflexivity.
Qed.

(** X7: a decimal literal: [n > 0] digits at [k], the first not 0, not
    followed by a point or an exponent mark, is read as an
    [IntegerLiteral] holding the digits; the run of [m] suffix letters
    [u], [U], [l], [L] after them is skipped and dropped. *)
Theorem decimal_literal_at : forall code k n m fuel,
  let c := list_ascii_of_string code in
  0 < n -> n < S fuel -> m < S fuel ->
  Ascii.eqb (nth k c nul) "0" = false ->
  (forall i, i < n -> is_ascii_digit (nth (k + i) c nul) = true) ->
  is_ascii_digit (nth (k + n) c nul) = false ->
  Ascii.eqb (nth (k + n) c nul) "." = false ->
  Ascii.eqb (nth (k + n) c nul) "e" || Ascii.eqb (nth (k + n) c nul) "E" = false ->
  (forall i, i < m -> is_int_suffix (nth (k + n + i) c nul) = true) ->
  is_int_suffix (nth (k + n + m) c nul) = false ->
  tokenizer_next (S fuel) (reader_at code k) =
  Some (reader_at code (k + n + m),
        (Token.IntegerLiteral (slice c k n),
         (span (reader_at code k), span (reader_at code (k + n + m))))).
Proof.
  intros code k n m fuel c Hn Hf Hm H0 Hin Hout Hdot He Hsin Hsout.
  assert (Hd := Hin 0 Hn). rewrite Nat.add_0_r in Hd.
  destruct (digit_char_facts _ Hd) as (Hid & Hw & Hs & Hp).
  rewrite tokenizer_next_plain by (rewrite current_at; assumption).
  unfold next_token. rewrite current_at. fold c. rewrite Hid, Hd.
  unfold read_number. rewrite current_at. fold c. rewrite H0, Hp.
  rewrite (read_digits_at code n k (S fuel) "") by assumption.
  rewrite current_at. fold c. rewrite Hdot, He.
  rewrite (skip_int_suffix_at code m (k + n) (S fuel)) by assumption.
  reflexivity.
Qed.

(** X8: a hexadecimal literal [0x] or [0X] followed by [n] hex digits is
    read as an [IntegerLiteral] holding [0x] and the digits in upper case;
    the run of [m] suffix letters after it is skipped and dropped. *)
Theorem hex_literal_at : forall code k n m fuel,
  let c := list_ascii_of_string code in
  n < S fuel -> m < S fuel ->
  nth k c nul = "0"%char -> (nth (S k) c nul = "x"%char \/ nth (S k) c nul = "X"%char) ->
  (forall i, i < n -> is_hex_digit (nth (S (S k) + i) c nul) = true) ->
  is_hex_digit (nth (S (S k) + n) c nul) = false ->
  (forall i, i < m -> is_int_suffix (nth (S (S k) + n + i) c nul) = true) ->
  is_int_suffix (nth (S (S k) + n + m) c nul) = false ->
  tokenizer_next (S fuel) (reader_at code k) =
  Some (reader_at code (S (S k) + n + m),
        (Token.IntegerLiteral ("0x" ++ upper_slice c (S (S k)) n),
         (span (reader_at code k), span (reader_at code (S (S k) + n + m))))).
Proof.
  intros code k n m fuel c Hf Hm H0 Hx Hin Hout Hsin Hsout.
  rewrite tokenizer_next_plain by (rewrite current_at; fold c; rewrite H0; reflexivity).
  unfold next_token. rewrite current_at. fold c. rewrite H0. cbv -[read_number reader_at].
  unfold read_number. rewrite current_at. fold c. rewrite H0. cbv -[read_hex_digits skip_int_suffix reader_at shift current].
  rewrite shift_at, current_at. fold c.
  destruct Hx as [Hx | Hx]; rewrite Hx; cbv -[read_hex_digits skip_int_suffix reader_at shift current];
    rewrite shift_at, (read_hex_digits_at code n (S (S k)) (S fuel) "0x") by assumption;
    rewrite (skip_int_suffix_at code m (S (S k) + n) (S fuel)) by assumption;
    reflexivity.
Qed.

(** Discharges a hypothesis [forall i, i < n -> P i] at a small concrete [n]. *)
Ltac check_below :=
  intros ?i ?Hi; do 12 (try (destruct i as [| i]; [first [reflexivity | split; reflexivity] |])); lia.

Lemma identifier_token_at_witness :
  tokenizer_next 10 (reader_at "foo+1" 0) =
  Some (reader_at "foo+1" 3,
        (Token.Identifier "foo", (span (reader_at "foo+1" 0), span (reader_at "foo+1" 3)))).
Proof.
  apply (identifier_token_at "foo+1" 0 3 10); [lia | lia | check_below | reflexivity].
Defined.

Lemma whitespace_skipped_at_witness :
  tokenizer_next 5 (reader_at "  x" 0) = tokenizer_next 5 (reader_at "  x" 2).
Proof.
  apply (whitespace_skipped_at "  x" 0 2 5); [lia | check_below | reflexivity].
Defined.

Lemma nul_byte_is_eof_witness :
  tokenizer_next 4 (reader_at "a" 5) =
  Some (reader_at "a" 6, (Token.Eof, (span (reader_at "a" 5), span (reader_at "a" 6)))).
Proof.
  apply (nul_byte_is_eof "a" 5 3). reflexivity.
Defined.

Lemma string_literal_at_witness :
  tokenizer_next 5 (reader_at ("=" ++ String quote ("hi" ++ String quote ";")) 1) =
  Some (reader_at ("=" ++ String quote ("hi" ++ String quote ";")) 5,
        (Token.StringLiteral "hi",
         (span (reader_at ("=" ++ String quote ("hi" ++ String quote ";")) 1),
          span (reader_at ("=" ++ String quote ("hi" ++ String quote ";")) 5)))).
Proof.
  apply (string_literal_at ("=" ++ String quote ("hi" ++ String quote ";")) 1 2 4);
    [reflexivity | lia | check_below | reflexivity].
Defined.

Lemma decimal_literal_at_witness :
  tokenizer_next 5 (reader_at "42u;" 0) =
  Some (reader_at "42u;" 3,
        (Token.IntegerLiteral "42", (span (reader_at "42u;" 0), span (reader_at "42u;" 3)))).
Proof.
  apply (decimal_literal_at "42u;" 0 2 1 4);
    [lia | lia | lia | reflexivity | check_below | reflexivity | reflexivity | reflexivity
    | check_below | reflexivity].
Defined.

Lemma hex_literal_at_witness :
  tokenizer_next 5 (reader_at "0xfFL" 0) =
  Some (reader_at "0xfFL" 5,
        (Token.IntegerLiteral "0xFF", (span (reader_at "0xfFL" 0), span (reader_at "0xfFL" 5)))).
Proof.
  apply (hex_literal_at "0xfFL" 0 2 1 4);
    [lia | lia | reflexivity | left; reflexivity | check_below | reflexivity | check_below
    | reflexivity].
Defined.

(* ================================================================== *)
(** * The environment, the compiler and the whole pipeline *)
(* ================================================================== *)

(** X9: pushing a function's frame and popping it gives back the
    environment; the pushed frame has no variables, so variable lookup is
    unchanged, while function lookup finds the function's nested functions
    first; popping an environment with no frames fails. *)
Theorem env_push_pop : forall env f name id,
  env_pop (env_push env f) = Some env /\
  env_get (env_push env f) name = env_get env name /\
  env_get_function (env_push env f) id =
    match map_get N.eqb id (functions f) with
    | Some g => Some g
    | None => env_get_function env id
    end /\
  env_pop {| frames := [] |} = None.
Proof.
  intros [fs] f name id. unfold env_pop, env_push, env_get, env_get_function. cbn [frames].
  rewrite vec_pop_app, rev_app_distr. repeat split.
Qed.

(** X10: [Set name] followed by [Call name] on a non-function value [v],
    with at least one frame, stores [v] in the top frame and pushes it back:
    the stack ends as it started. *)
Theorem set_then_call_reads_back : forall fuel rt env name v rest stack,
  frames env <> [] -> (forall id, v <> VFunction id) ->
  run_code (S (S fuel)) rt env (ISet name :: ICall name :: rest) (stack ++ [v]) =
  run_code fuel rt (env_set env name v) rest (stack ++ [v]).
Proof.
  intros fuel rt [fs] name v rest stack Hfs Hv. cbn [frames] in Hfs.
  destruct (exists_last Hfs) as (lower & top & ->).
  change (run_code (S (S fuel)) rt {| frames := lower ++ [top] |} (ISet name :: ICall name :: rest) (stack ++ [v]))
    with (match vec_pop (stack ++ [v]) with
          | None => Error StackUnderflow
          | Some (stack', v') => run_code (S fuel) rt (env_set {| frames := lower ++ [top] |} name v') (ICall name :: rest) stack'
          end).
  rewrite vec_pop_app, env_set_app.
  assert (Hg : env_get {| frames := lower ++ [set_variable top name v] |} name = Some v).
  { unfold env_get. cbn [frames]. rewrite frames_get_app. cbn [variables set_variable].
    rewrite (map_get_insert _ string_eqb_spec), String.eqb_refl. reflexivity. }
  cbn [run_code]. rewrite Hg.
  destruct v; try reflexivity. exfalso. eapply Hv. reflexivity.
Qed.

Lemma register_variants_spec : forall vs rt def,
  let rt' := register_variants rt def vs in
  let n := rt_next_id rt in
  rt_next_id rt' = (n + N.of_nat (length vs))%N /\
  builtin_functions rt' = builtin_functions rt /\
  (forall i v, nth_error vs i = Some v ->
     map_get N.eqb (n + N.of_nat i)%N (builtin_id_to_class rt') =
     Some (variant_class def (n + N.of_nat i)%N v)) /\
  (forall id, (id < n \/ n + N.of_nat (length vs) <= id)%N ->
     map_get N.eqb id (builtin_id_to_class rt') = map_get N.eqb id (builtin_id_to_class rt)) /\
  (forall name, ~ In name (map variant_name vs) ->
     map_get String.eqb name (builtin_instance_classes rt') =
     map_get String.eqb name (builtin_instance_classes rt)) /\
  (NoDup (map variant_name vs) -> forall i v, nth_error vs i = Some v ->
     map_get String.eqb (variant_name v) (builtin_instance_classes rt') =
     Some (variant_class def (n + N.of_nat i)%N v)).
Proof.
  induction vs as [| v0 vs IH]; intros rt def rt' n.
  - subst rt' n. cbn [register_variants length]. rewrite N.add_0_r.
    repeat split; intros; try reflexivity;
      match goal with H : nth_error [] ?i = Some _ |- _ => destruct i; discriminate end.
  - subst rt' n.
    set (rt1 := {| builtin_functions := builtin_functions rt;
                   builtin_instance_classes :=
                     map_insert String.eqb (variant_name v0) (variant_class def (rt_next_id rt) v0)
                       (builtin_instance_classes rt);
                   builtin_id_to_class :=
                     map_insert N.eqb (rt_next_id rt) (variant_class def (rt_next_id rt) v0)
                       (builtin_id_to_class rt);
                   rt_next_id := N.succ (rt_next_id rt) |}).
    change (register_variants rt def (v0 :: vs)) with (register_variants rt1 def vs).
    destruct (IH rt1 def) as (Hn & Hf & Hid & Hout & Hnot & Hin).
    set (rt' := register_variants rt1 def vs) in *. set (n := rt_next_id rt) in *.
    cbn [rt1 rt_next_id builtin_functions builtin_instance_classes builtin_id_to_class] in *.
    split; [rewrite Hn; cbn [length]; lia |].
    split; [exact Hf |].
    split; [| split; [| split]].
    + intros [| i] v H.
      * cbn in H. injection H as <-. rewrite N.add_0_r, Hout by lia.
        rewrite (map_get_insert _ N_eqb_spec), N.eqb_refl. reflexivity.
      * cbn in H. replace (n + N.of_nat (S i))%N with (N.succ n + N.of_nat i)%N by lia.
        apply Hid. exact H.
    + intros id Hr. rewrite Hout by (cbn [length] in Hr; lia).
      rewrite (map_get_insert _ N_eqb_spec).
      destruct (N.eqb id n) eqn:E; [apply N.eqb_eq in E; cbn [length] in Hr; lia | reflexivity].
    + intros name Hni. cbn [map In] in Hni. rewrite Hnot by tauto.
      rewrite (map_get_insert _ string_eqb_spec).
      destruct (String.eqb name (variant_name v0)) eqn:E; [apply String.eqb_eq in E; exfalso; apply Hni; left; symmetry; exact E | reflexivity].
    + intros Hnd [| i] v H; cbn [map] in Hnd; inversion Hnd as [| ? ? Hh Ht]; subst.
      * cbn in H. injection H as <-. rewrite N.add_0_r, Hnot by exact Hh.
        rewrite (map_get_insert _ string_eqb_spec), String.eqb_refl. reflexivity.
      * cbn in H. replace (n + N.of_nat (S i))%N with (N.succ n + N.of_nat i)%N by lia.
        apply Hin; assumption.
Qed.

Lemma compile_variants_spec : forall vs c node def,
  let r := compile_variants c node def vs in
  let n := next_id c in
  next_id (fst r) = (n + N.of_nat (length vs))%N /\
  args (snd r) = args node /\ code (snd r) = code node /\ functions (snd r) = functions node /\
  (forall name, ~ In name (map variant_name vs) ->
     map_get String.eqb name (instance_classes (snd r)) =
     map_get String.eqb name (instance_classes node)) /\
  (NoDup (map variant_name vs) -> forall i v, nth_error vs i = Some v ->
     map_get String.eqb (variant_name v) (instance_classes (snd r)) =
     Some (variant_class def (n + N.of_nat i)%N v)).
Proof.
  induction vs as [| v0 vs IH]; intros c node def r n.
  - subst r n. cbn [compile_variants length fst snd]. rewrite N.add_0_r.
    repeat split; intros; try reflexivity;
      match goal with H : nth_error [] ?i = Some _ |- _ => destruct i; discriminate end.
  - subst r n.
    change (compile_variants c node def (v0 :: vs))
      with (compile_variants {| next_id := N.succ (next_id c) |}
              (insert_class node (variant_name v0) (variant_class def (next_id c) v0)) def vs).
    destruct (IH {| next_id := N.succ (next_id c) |}
                 (insert_class node (variant_name v0) (variant_class def (next_id c) v0)) def)
      as (Hn & Ha & Hc & Hf & Hnot & Hin).
    set (r := compile_variants _ _ def vs) in *. set (n := next_id c) in *.
    cbn [next_id insert_class args code functions instance_classes] in *.
    split; [rewrite Hn; cbn [length]; lia |].
    split; [exact Ha |]. split; [exact Hc |]. split; [exact Hf |]. split.
    + intros name Hni. cbn [map In] in Hni. rewrite Hnot by tauto.
      rewrite (map_get_insert _ string_eqb_spec).
      destruct (String.eqb name (variant_name v0)) eqn:E;
        [apply String.eqb_eq in E; exfalso; apply Hni; left; symmetry; exact E | reflexivity].
    + intros Hnd [| i] v H; cbn [map] in Hnd; inversion Hnd as [| ? ? Hh Ht]; subst.
      * cbn in H. injection H as <-. rewrite N.add_0_r, Hnot by exact Hh.
        rewrite (map_get_insert _ string_eqb_spec), String.eqb_refl. reflexivity.
      * cbn in H. replace (n + N.of_nat (S i))%N with (N.succ n + N.of_nat i)%N by lia.
        apply Hin; assumption.
Qed.


Lemma all_some_length : forall {A} (l : list (option A)) xs, all_some l = Some xs -> length xs = length l.
Proof.
  intros A. induction l as [| o l IH]; intros xs H; cbn in H.
  - injection H as <-. reflexivity.
  - destruct o as [x |]; [| discriminate]. destruct (all_some l) as [ys |] eqn:E; [| discriminate].
    injection H as <-. cbn. f_equal. apply IH. reflexivity.
Qed.

Fixpoint compile_const (e : Expression) {struct e} : forall v c node,
  const_value e = Some v ->
  exists d, compile_expression c node e =
              (c, mkCompiledFunction (args node) (code node ++ d) (functions node) (instance_classes node)) /\
            forall fuel rt env rest stack,
              run_code (length d + fuel) rt env (d ++ rest) stack = run_code fuel rt env rest (stack ++ [v]).
Proof.
  assert (Hall : forall es vs c node, all_some (map const_value es) = Some vs ->
    exists d, (fix compile_all (c : Compiler) (node : CompiledFunction) (es : list Expression)
                  : Compiler * CompiledFunction :=
                  match es with
                  | [] => (c, node)
                  | e :: es' => let (c1, n1) := compile_expression c node e in compile_all c1 n1 es'
                  end) c node es =
              (c, mkCompiledFunction (args node) (code node ++ d) (functions node) (instance_classes node)) /\
            forall fuel rt env rest stack,
              run_code (length d + fuel) rt env (d ++ rest) stack = run_code fuel rt env rest (stack ++ vs)).
  { fix go 1. intros [| e0 es] vs c node H; cbn [map all_some] in H.
    - injection H as <-. exists []. split.
      + rewrite app_nil_r. destruct node; reflexivity.
      + intros. rewrite app_nil_r. reflexivity.
    - destruct (const_value e0) as [v |] eqn:E1; [| discriminate].
      destruct (all_some (map const_value es)) as [vs' |] eqn:E2; [| discriminate].
      injection H as <-.
      destruct (compile_const e0 v c node E1) as (d1 & Hc1 & Hr1).
      destruct (go es vs' c (mkCompiledFunction (args node) (code node ++ d1) (functions node)
                               (instance_classes node)) E2) as (d2 & Hc2 & Hr2).
      exists (d1 ++ d2). split.
      + cbn beta iota. rewrite Hc1. cbn beta iota. rewrite Hc2. cbn [args code functions instance_classes].
        rewrite app_assoc. reflexivity.
      + intros fuel rt env rest stack.
        rewrite length_app, <- Nat.add_assoc, <- app_assoc, Hr1, Hr2, <- app_assoc. reflexivity. }
  destruct e as [x|x|x|name es|op l r|op e1|items|vals|ps body|e1];
    intros v c node H; cbn [const_value] in H; try discriminate.
  - injection H as <-. exists [IInt x]. split; reflexivity.
  - injection H as <-. exists [IFloat x]. split; reflexivity.
  - injection H as <-. exists [IString x]. split; reflexivity.
  - destruct (all_some (map const_value items)) as [vs |] eqn:E; [| discriminate].
    injection H as <-. destruct (Hall items vs c node E) as (d & Hc & Hr).
    exists (d ++ [IList (length items)]). split.
    + cbn [compile_expression]. rewrite Hc. unfold push_code. cbn [args code functions instance_classes].
      rewrite app_assoc. reflexivity.
    + intros fuel rt env rest stack. rewrite length_app, <- app_assoc. cbn [length app].
      replace (length d + 1 + fuel) with (length d + S fuel) by lia. rewrite Hr.
      cbn [run_code]. rewrite <- (length_map const_value items), <- (all_some_length _ _ E), pop_n_app. reflexivity.
  - destruct (all_some (map const_value vals)) as [vs |] eqn:E; [| discriminate].
    injection H as <-. destruct (Hall vals vs c node E) as (d & Hc & Hr).
    exists (d ++ [ITuple (length vals)]). split.
    + cbn [compile_expression]. rewrite Hc. unfold push_code. cbn [args code functions instance_classes].
      rewrite app_assoc. reflexivity.
    + intros fuel rt env rest stack. rewrite length_app, <- app_assoc. cbn [length app].
      replace (length d + 1 + fuel) with (length d + S fuel) by lia. rewrite Hr.
      cbn [run_code]. rewrite <- (length_map const_value vals), <- (all_some_length _ _ E), pop_n_app. reflexivity.
Qed.


Lemma ids_step_refl : forall c node, ids_step c node (c, node).
Proof. intros c node. unfold ids_step; cbn [fst snd]. split; [lia | split; [tauto | tauto]]. Qed.

Lemma ids_step_trans : forall c node c1 n1 r,
  ids_step c node (c1, n1) -> ids_step c1 n1 r -> ids_step c node r.
Proof.
  intros c node c1 n1 r (H1 & I1 & D1) (H2 & I2 & D2). cbn [fst snd] in *.
  split; [lia | split].
  - intros x Hx. destruct (I2 x Hx) as [Hx' | Hx'].
    + destruct (I1 x Hx') as [Hx'' | Hx'']; [left; exact Hx'' | right; lia].
    + right. lia.
  - intros Hb Hd. apply D2; [| apply D1; assumption].
    intros x Hx. destruct (I1 x Hx) as [Hx' | Hx']; [specialize (Hb x Hx') |]; lia.
Qed.

Lemma ids_step_push : forall c node c1 n1 i,
  ids_step c node (c1, n1) -> ids_step c node (c1, push_code n1 i).
Proof.
  intros c node c1 n1 i H.
  assert (Ha : all_ids (push_code n1 i) = all_ids n1) by (destruct n1; reflexivity).
  unfold ids_step in *. cbn [fst snd] in *. rewrite Ha. exact H.
Qed.

Lemma compile_variants_ids : forall vs c node def, ids_step c node (compile_variants c node def vs).
Proof.
  intros vs c node def.
  destruct (compile_variants_spec vs c node def) as (Hn & _ & _ & Hf & _).
  cbv zeta in *. destruct (compile_variants c node def vs) as [c' n'] eqn:E. cbn [fst snd] in *.
  assert (Ha : all_ids n' = all_ids node) by (destruct n', node; cbn in *; rewrite Hf; reflexivity).
  unfold ids_step; cbn [fst snd]. rewrite Ha. split; [lia | split; [tauto | tauto]].
Qed.

Lemma all_ids_insert : forall m k v x,
  In x (flat_map (fun '(id, g) => id :: all_ids g) (map_insert N.eqb k v m)) ->
  In x (flat_map (fun '(id, g) => id :: all_ids g) m) \/ x = k \/ In x (all_ids v).
Proof.
  induction m as [| [k0 v0] m IH]; intros k v x H; cbn in H.
  - destruct H as [H | H]; [right; left; congruence | rewrite app_nil_r in H; tauto].
  - destruct (N.eqb k k0) eqn:E.
    + apply N.eqb_eq in E. subst k0. cbn in H. destruct H as [H | H]; [right; left; congruence |].
      apply in_app_or in H. destruct H as [H | H]; [tauto | left; cbn; right; apply in_or_app; tauto].
    + cbn in H. destruct H as [H | H]; [left; cbn; tauto |].
      apply in_app_or in H. destruct H as [H | H]; [left; cbn; right; apply in_or_app; tauto |].
      destruct (IH k v x H) as [H' | H']; [left; cbn; right; apply in_or_app; tauto | tauto].
Qed.

Lemma map_insert_fresh : forall (m : list (N * CompiledFunction)) k v,
  ~ In k (map fst m) -> map_insert N.eqb k v m = m ++ [(k, v)].
Proof.
  induction m as [| [k0 v0] m IH]; intros k v H; [reflexivity |].
  cbn [map fst In] in H. cbn [map_insert].
  destruct (N.eqb k k0) eqn:E; [apply N.eqb_eq in E; subst; tauto |].
  rewrite IH by tauto. reflexivity.
Qed.

Lemma keys_in_all_ids : forall f k, In k (map fst (functions f)) -> In k (all_ids f).
Proof.
  intros [a cd fs ic] k H. cbn [functions] in H. cbn [all_ids functions].
  induction fs as [| [k0 v0] fs IH]; [destruct H |].
  cbn in H |- *. destruct H as [H | H]; [left; exact H | right; apply in_or_app; right; apply IH, H].
Qed.

Lemma lambda_ids : forall c node c1 lam,
  (next_id c <= next_id c1)%N ->
  (forall x, In x (all_ids lam) -> (next_id c <= x < next_id c1)%N) -> NoDup (all_ids lam) ->
  ids_step c node ({| next_id := N.succ (next_id c1) |},
                   push_code (insert_function node (next_id c1) lam) (IFunction (next_id c1))).
Proof.
  intros c node c1 lam Hle Hlam Hnd.
  apply ids_step_push. unfold ids_step. cbn [fst snd next_id].
  assert (Hf : all_ids (insert_function node (next_id c1) lam) =
               flat_map (fun '(id, g) => id :: all_ids g)
                 (map_insert N.eqb (next_id c1) lam (functions node)))
    by (destruct node; reflexivity).
  rewrite Hf. split; [lia | split].
  - intros x Hx. destruct (all_ids_insert _ _ _ _ Hx) as [H | [H | H]].
    + left. destruct node; exact H.
    + right. lia.
    + right. specialize (Hlam x H). lia.
  - intros Hb Hd. rewrite map_insert_fresh.
    + rewrite flat_map_app. cbn [flat_map]. rewrite app_nil_r.
      assert (Ha : flat_map (fun '(id, g) => id :: all_ids g) (functions node) = all_ids node)
        by (destruct node; reflexivity).
      rewrite Ha. apply NoDup_app; [exact Hd | constructor; [| exact Hnd] |].
      * intros H. specialize (Hlam _ H). lia.
      * intros x H1 H2. specialize (Hb x H1). destruct H2 as [H2 | H2]; [lia |].
        specialize (Hlam x H2). lia.
    + intros H. apply keys_in_all_ids in H. specialize (Hb _ H). lia.
Qed.

Fixpoint ids_expr (e : Expression) {struct e} :
  forall c node, ids_step c node (compile_expression c node e)
with ids_stmt (s : Statement) {struct s} :
  forall c node, ids_step c node (compile_statement c node s).
Proof.
  - assert (Hall : forall es c node,
      ids_step c node ((fix compile_all (c : Compiler) (node : CompiledFunction)
                          (es : list Expression) : Compiler * CompiledFunction :=
                          match es with
                          | [] => (c, node)
                          | e :: es' => let (c1, n1) := compile_expression c node e in
                                        compile_all c1 n1 es'
                          end) c node es)).
    { fix go 1. intros [| e0 es] c node; [apply ids_step_refl |].
      cbn beta iota. pose proof (ids_expr e0 c node) as H1.
      destruct (compile_expression c node e0) as [c1 n1].
      eapply ids_step_trans; [exact H1 | apply go]. }
    assert (Hbody : forall ss c node,
      ids_step c node ((fix compile_body (c : Compiler) (node : CompiledFunction)
                          (ss : list Statement) : Compiler * CompiledFunction :=
                          match ss with
                          | [] => (c, node)
                          | s :: ss' => let (c1, n1) := compile_statement c node s in
                                        compile_body c1 n1 ss'
                          end) c node ss)).
    { fix go 1. intros [| s0 ss] c node; [apply ids_step_refl |].
      cbn beta iota. pose proof (ids_stmt s0 c node) as H1.
      destruct (compile_statement c node s0) as [c1 n1].
      eapply ids_step_trans; [exact H1 | apply go]. }
    destruct e as [x|x|x|name es|op l r|op e1|items|vals|ps body|e1];
      intros c node; cbn [compile_expression].
    + apply ids_step_push, ids_step_refl.
    + apply ids_step_push, ids_step_refl.
    + apply ids_step_push, ids_step_refl.
    + specialize (Hall es c node). destruct (_ c node es) as [c1 n1]. apply ids_step_push, Hall.
    + pose proof (ids_expr l c node) as H1. destruct (compile_expression c node l) as [c1 n1].
      pose proof (ids_expr r c1 n1) as H2. destruct (compile_expression c1 n1 r) as [c2 n2].
      apply ids_step_push. eapply ids_step_trans; [exact H1 | exact H2].
    + pose proof (ids_expr e1 c node) as H1. destruct (compile_expression c node e1) as [c1 n1].
      apply ids_step_push, H1.
    + specialize (Hall items c node). destruct (_ c node items) as [c1 n1]. apply ids_step_push, Hall.
    + specialize (Hall vals c node). destruct (_ c node vals) as [c1 n1]. apply ids_step_push, Hall.
    + specialize (Hbody body c (mkCompiledFunction (length ps) (map ISet (rev ps)) [] [])).
      destruct (_ c _ body) as [c1 lam]. destruct Hbody as (Hle & Hin & Hnd). cbn [fst snd] in *.
      unfold compiler_next_id. apply lambda_ids; [exact Hle | |].
      * intros x Hx. destruct (Hin x Hx) as [H | H]; [destruct H | exact H].
      * apply Hnd; [intros x [] | constructor].
    + pose proof (ids_expr e1 c node) as H1. destruct (compile_expression c node e1) as [c1 n1].
      apply ids_step_push, H1.
  - destruct s as [name value | e | def]; intros c node; cbn [compile_statement].
    + pose proof (ids_expr value c node) as H1. destruct (compile_expression c node value) as [c1 n1].
      apply ids_step_push, H1.
    + apply ids_expr.
    + apply compile_variants_ids.
Qed.

Lemma ids_stmts : forall ss c node, ids_step c node (compile_statements c node ss).
Proof.
  induction ss as [| s ss IH]; intros c node; [apply ids_step_refl |].
  cbn [compile_statements]. pose proof (ids_stmt s c node) as H1.
  destruct (compile_statement c node s) as [c1 n1].
  eapply ids_step_trans; [exact H1 | apply IH].
Qed.

(** X14: the nested functions of a compiled program, at every depth, all
    have distinct ids. *)
Theorem compiled_function_ids_distinct : forall p,
  NoDup (all_ids (root_function (compile p))).
Proof.
  intros p. unfold compile. cbn [root_function].
  destruct (ids_stmts (statements p) {| next_id := 0%N |} (mkCompiledFunction 0 [] [] []))
    as (_ & _ & Hd).
  apply Hd; [intros x [] | constructor].
Qed.

(** X11: [register_type] gives the variants consecutive ids from
    [next_id], which advances by the number of variants; the builtin
    functions, the other ids and the other names are unchanged, and with
    distinct variant names each name maps to its variant's class. *)
Theorem register_type_classes : forall rt def,
  let rt' := register_type rt def in
  let n := rt_next_id rt in
  let vs := variants def in
  rt_next_id rt' = (n + N.of_nat (length vs))%N /\
  builtin_functions rt' = builtin_functions rt /\
  (forall i v, nth_error vs i = Some v ->
     map_get N.eqb (n + N.of_nat i)%N (builtin_id_to_class rt') =
     Some (variant_class def (n + N.of_nat i)%N v)) /\
  (forall id, (id < n \/ n + N.of_nat (length vs) <= id)%N ->
     map_get N.eqb id (builtin_id_to_class rt') = map_get N.eqb id (builtin_id_to_class rt)) /\
  (forall name, ~ In name (map variant_name vs) ->
     map_get String.eqb name (builtin_instance_classes rt') =
     map_get String.eqb name (builtin_instance_classes rt)) /\
  (NoDup (map variant_name vs) -> forall i v, nth_error vs i = Some v ->
     map_get String.eqb (variant_name v) (builtin_instance_classes rt') =
     Some (variant_class def (n + N.of_nat i)%N v)).
Proof. intros rt def. apply register_variants_spec. Qed.

(** X12: compiling a [TypeDef] statement emits no code and adds no
    function; it gives the variants consecutive ids from the compiler's
    counter, which advances by the number of variants, leaves the other
    names' classes unchanged and, with distinct variant names, maps each
    name to its variant's class. *)
Theorem typedef_statement_classes : forall c node def,
  let r := compile_statement c node (STypeDef def) in
  let n := next_id c in
  let vs := variants def in
  next_id (fst r) = (n + N.of_nat (length vs))%N /\
  args (snd r) = args node /\ code (snd r) = code node /\ functions (snd r) = functions node /\
  (forall name, ~ In name (map variant_name vs) ->
     map_get String.eqb name (instance_classes (snd r)) =
     map_get String.eqb name (instance_classes node)) /\
  (NoDup (map variant_name vs) -> forall i v, nth_error vs i = Some v ->
     map_get String.eqb (variant_name v) (instance_classes (snd r)) =
     Some (variant_class def (n + N.of_nat i)%N v)).
Proof. intros c node def. apply compile_variants_spec. Qed.

Fixpoint is_constant_value (e : Expression) {struct e} :
  is_constant e = true -> exists v, const_value e = Some v.
Proof.
  assert (Hall : forall es, forallb is_constant es = true ->
                 exists vs, all_some (map const_value es) = Some vs /\ length vs = length es).
  { fix go 1. intros [| e' es'] H; cbn [forallb] in H.
    - exists []. split; reflexivity.
    - apply andb_prop in H as [H1 H2].
      destruct (is_constant_value e' H1) as [v Hv].
      destruct (go es' H2) as [vs [Hvs Hl]].
      exists (v :: vs). cbn [map all_some]. rewrite Hv, Hvs. split; [reflexivity | cbn; rewrite Hl; reflexivity]. }
  destruct e as [v|v|v|name es|op l r|op e1|items|vals|ps body|e1]; cbn [is_constant const_value];
    intros H; try discriminate.
  - eexists; reflexivity.
  - eexists; reflexivity.
  - eexists; reflexivity.
  - destruct (Hall items H) as [vs [-> _]]. eexists; reflexivity.
  - destruct (Hall vals H) as [vs [-> _]]. eexists; reflexivity.
Qed.

Lemma const_value_shape : forall e v,
  const_value e = Some v ->
  match e with
  | EInt n => v = VInt n
  | EFloat x => v = VFloat x
  | EString t => v = VString t
  | EList items => exists vs, v = VList vs /\ length vs = length items
  | ETuple items => exists vs, v = VTuple vs /\ length vs = length items
  | _ => False
  end.
Proof.
  intros e v H.
  destruct e as [n|x|t|name es|op l r|op e1|items|vals|ps body|e1]; cbn [const_value] in H;
    try discriminate.
  - injection H as <-. reflexivity.
  - injection H as <-. reflexivity.
  - injection H as <-. reflexivity.
  - destruct (all_some (map const_value items)) as [vs |] eqn:E; [| discriminate].
    injection H as <-. exists (rev vs). split; [reflexivity |].
    rewrite length_rev, (all_some_length _ _ E), length_map. reflexivity.
  - destruct (all_some (map const_value vals)) as [vs |] eqn:E; [| discriminate].
    injection H as <-. exists (rev vs). split; [reflexivity |].
    rewrite length_rev, (all_some_length _ _ E), length_map. reflexivity.
Qed.

(** X13: an expression built only from literals, lists and tuples compiles
    to code appended at the end of the function, without using the id
    counter, and running that code, whatever the stack below, pushes
    exactly one value and leaves the environment as it was: the literal's
    value for a literal, a list or tuple of as many items as the source for
    a list or a tuple. *)
Theorem constant_expression_compiles : forall e c node,
  is_constant e = true ->
  exists d v, compile_expression c node e =
              (c, mkCompiledFunction (args node) (code node ++ d) (functions node) (instance_classes node)) /\
            (forall fuel rt env rest stack,
              run_code (length d + fuel) rt env (d ++ rest) stack = run_code fuel rt env rest (stack ++ [v])) /\
            match e with
            | EInt n => v = VInt n
            | EFloat x => v = VFloat x
            | EString t => v = VString t
            | EList items => exists vs, v = VList vs /\ length vs = length items
            | ETuple items => exists vs, v = VTuple vs /\ length vs = length items
            | _ => False
            end.
Proof.
  intros e c node H.
  destruct (is_constant_value e H) as [v Hv].
  destruct (compile_const e v c node Hv) as (d & Hc & Hr).
  exists d, v. split; [exact Hc | split; [exact Hr | exact (const_value_shape e v Hv)]].
Qed.

Lemma constant_expression_compiles_witness :
  exists d v, compile_expression {| next_id := 0%N |} (mkCompiledFunction 0 [] [] [])
              (EList [EInt 1; ETuple [EString "a"; EInt 2]]) =
            ({| next_id := 0%N |}, mkCompiledFunction 0 ([] ++ d) [] []) /\
            (forall fuel rt env rest stack,
              run_code (length d + fuel) rt env (d ++ rest) stack =
              run_code fuel rt env rest (stack ++ [v])) /\
            exists vs, v = VList vs /\ length vs = 2.
Proof.
  apply (constant_expression_compiles (EList [EInt 1; ETuple [EString "a"; EInt 2]])
           {| next_id := 0%N |} (mkCompiledFunction 0 [] [] [])).
  reflexivity.
Defined.

Lemma set_then_call_reads_back_witness :
  run_code 4 main_runtime (env_push {| frames := [] |} (mkCompiledFunction 0 [] [] []))
    [ISet "x"; ICall "x"] [VInt 7] = Done (env_set (env_push {| frames := [] |} (mkCompiledFunction 0 [] [] [])) "x" (VInt 7), VInt 7).
Proof.
  transitivity (run_code 2 main_runtime
                  (env_set (env_push {| frames := [] |} (mkCompiledFunction 0 [] [] [])) "x" (VInt 7))
                  [] ([] ++ [VInt 7])).
  - apply (set_then_call_reads_back 2 main_runtime
             (env_push {| frames := [] |} (mkCompiledFunction 0 [] [] [])) "x" (VInt 7) [] []).
    + discriminate.
    + intros id. discriminate.
  - reflexivity.
Defined.

Lemma reader_at_0 : forall code, reader_at code 0 = reader_new code.
Proof. intros code. unfold reader_at. cbv beta delta [Nat.iter nat_rect]. reflexivity. Qed.

(** X15: a source made only of white space, the empty source included,
    runs to [Unit] when the fuel exceeds its length. *)
Theorem blank_program_runs_to_unit : forall code fuel,
  let c := list_ascii_of_string code in
  (forall i, i < length c -> is_ascii_whitespace (nth i c nul) = true) ->
  length c < fuel ->
  main_result fuel code = Ran (Done VUnit).
Proof.
  intros code fuel c Hw Hf. destruct fuel as [| f]; [lia |].
  set (n := length c).
  assert (Hnul : nth n c nul = nul) by (apply nth_overflow; lia).
  assert (Ht : tokenizer_next (S f) (reader_at code 0) =
               Some (reader_at code (S n), (Token.Eof, (span (reader_at code n), span (reader_at code (S n)))))).
  { unfold tokenizer_next.
    rewrite (trim_spaces_at code n 0 (S f)); [| lia | intros i Hi; apply Hw; lia | cbn [Nat.add]; fold c; rewrite Hnul; reflexivity].
    cbn [Nat.add trim_comments]. rewrite ?current_at. fold c. rewrite ?Hnul.
    cbv beta iota delta [negb Ascii.eqb Bool.eqb nul].
    unfold next_token. rewrite current_at, next_at. fold c. rewrite Hnul. cbv -[produce reader_at].
    unfold produce. rewrite shift_at. reflexivity. }
  unfold main_result, parse_source, parse_program. cbn [program_loop].
  unfold cur, p_current. cbn [fill_n]. unfold parser_new. cbn [plookahead length Nat.leb].
  unfold push_token. cbn [tk]. rewrite <- reader_at_0, Ht.
  cbn. reflexivity.
Qed.

Lemma blank_program_runs_to_unit_witness :
  main_result 10 (" " ++ String "010" " ") = Ran (Done VUnit).
Proof.
  apply (blank_program_runs_to_unit (" " ++ String "010" " ") 10).
  - intros i Hi. cbn in Hi. do 3 (destruct i as [| i]; [reflexivity |]). lia.
  - apply Nat.ltb_lt. reflexivity.
Defined.

(* ================================================================== *)
(** * Builtins, operators, type definitions and more literals *)
(* ================================================================== *)

Lemma main_runtime_unary_minus :
  map_get String.eqb "unary_minus" (builtin_functions main_runtime) =
  Some {| bargs := 1; func := builtin_unary_minus |}.
Proof. reflexivity. Qed.

Lemma main_runtime_unary_plus :
  map_get String.eqb "unary_plus" (builtin_functions main_runtime) =
  Some {| bargs := 1; func := builtin_unary_plus |}.
Proof. reflexivity. Qed.

Lemma main_runtime_no_unary_not :
  map_get String.eqb "unary_not" (builtin_functions main_runtime) = None /\
  map_get String.eqb "unary_not" (builtin_instance_classes main_runtime) = None.
Proof. split; reflexivity. Qed.

Lemma main_runtime_no_operator : forall op,
  map_get String.eqb (operator_name op) (builtin_functions main_runtime) = None /\
  map_get String.eqb (operator_name op) (builtin_instance_classes main_runtime) = None.
Proof. intros op. destruct op; split; reflexivity. Qed.

(** X16: in the runtime of [main], where no variable or class of the
    frames is named after it, [unary_minus] negates an int (and panics on
    the smallest [i32]) or a float, [unary_plus] keeps an int or a float,
    both fail on any other value with a [Custom] error whose message is
    their fixed text, [": "] and the [Debug] form of the value, and with
    [StackUnderflow] on an empty stack, and [unary_not] is an undefined
    name. *)
Theorem unary_operators_in_main_runtime : forall op fuel env rest stack v,
  env_get env (unary_operator_name op) = None ->
  env_get_instance_class env (unary_operator_name op) = None ->
  run_code (S fuel) main_runtime env (ICall (unary_operator_name op) :: rest) (stack ++ [v]) =
    match op with
    | UnaryOperator.Not => Error (UndefinedName "unary_not")
    | UnaryOperator.Plus =>
        match v with
        | VInt _ | VFloat _ => run_code fuel main_runtime env rest (stack ++ [v])
        | _ => Error (Custom "Unable to use unary plus on non numeric value" v)
        end
    | UnaryOperator.Minus =>
        match v with
        | VInt z => if Z.eqb z i32_min then Panic
                    else run_code fuel main_runtime env rest (stack ++ [VInt (- z)])
        | VFloat x =>
            run_code fuel main_runtime env rest
              (stack ++ [VFloat {| f_mantissa := - f_mantissa x; f_exponent := f_exponent x |}])
        | _ => Error (Custom "Unable to negate non numeric value" v)
        end
    end /\
  run_code (S fuel) main_runtime env (ICall (unary_operator_name op) :: rest) [] =
    match op with
    | UnaryOperator.Not => Error (UndefinedName "unary_not")
    | _ => Error StackUnderflow
    end.
Proof.
  intros op fuel env rest stack v Hv Hc. cbn [run_code]. rewrite Hv, Hc.
  destruct op; cbn [unary_operator_name].
  - rewrite main_runtime_unary_plus. cbn [bargs func].
    change 1 with (length [v]). rewrite pop_n_app. split; [| reflexivity].
    destruct v; reflexivity.
  - rewrite main_runtime_unary_minus. cbn [bargs func].
    change 1 with (length [v]). rewrite pop_n_app. split; [| reflexivity].
    destruct v; try reflexivity.
    cbn [rev app builtin_unary_minus first_arg bind]. destruct (Z.eqb v i32_min); reflexivity.
  - destruct main_runtime_no_unary_not as [-> ->]. split; reflexivity.
Qed.

Lemma unary_operators_in_main_runtime_witness :
  run_code 2 main_runtime (env_push {| frames := [] |} (mkCompiledFunction 0 [] [] []))
    [ICall "unary_minus"] [VInt 5] = Done (env_push {| frames := [] |} (mkCompiledFunction 0 [] [] []), VInt (-5)).
Proof.
  destruct (unary_operators_in_main_runtime UnaryOperator.Minus 1
              (env_push {| frames := [] |} (mkCompiledFunction 0 [] [] [])) [] [] (VInt 5))
    as [H _]; [reflexivity | reflexivity |].
  exact H.
Defined.

Lemma map_insert_values : forall {K V} (eqb : K -> K -> bool) k (v : V) m x,
  In x (map snd (map_insert eqb k v m)) -> In x (map snd m) \/ x = v.
Proof.
  intros K V eqb k v m x. induction m as [| [k' v'] m IH]; cbn [map_insert].
  - intros [<- | []]. right. reflexivity.
  - destruct (eqb k k'); cbn [map snd fst].
    + intros [<- | H]; [right; reflexivity | left; right; exact H].
    + intros [<- | H]; [left; left; reflexivity |].
      destruct (IH H) as [H' | H']; [left; right; exact H' | right; exact H'].
Qed.

Lemma compile_variants_classes : forall vs c node def x,
  In x (map snd (instance_classes (snd (compile_variants c node def vs)))) ->
  In x (map snd (instance_classes node)) \/ exists v, In v vs /\ class_variant x = variant_name v.
Proof.
  induction vs as [| v0 vs IH]; intros c node def x H; cbn [compile_variants] in H.
  - left. exact H.
  - destruct (IH _ _ _ _ H) as [H1 | (v & Hv & E)].
    + unfold insert_class in H1. cbn [instance_classes] in H1.
      destruct (map_insert_values _ _ _ _ _ H1) as [H2 | ->].
      * left. exact H2.
      * right. exists v0. split; [left; reflexivity | reflexivity].
    + right. exists v. split; [right; exact Hv | exact E].
Qed.

(** Compiling an expression never changes the function's instance classes. *)
Fixpoint compile_expression_classes (e : Expression) {struct e} :
  forall c node, instance_classes (snd (compile_expression c node e)) = instance_classes node.
Proof.
  assert (Hall : forall es c node,
    instance_classes (snd ((fix compile_all (c : Compiler) (node : CompiledFunction)
                          (es : list Expression) : Compiler * CompiledFunction :=
                          match es with
                          | [] => (c, node)
                          | e :: es' => let (c1, n1) := compile_expression c node e in
                                        compile_all c1 n1 es'
                          end) c node es)) = instance_classes node).
  { fix go 1. intros [| e' es'] c node; [reflexivity |].
    cbn beta iota. specialize (compile_expression_classes e' c node).
    destruct (compile_expression c node e') as [c1 n1]. cbn [snd] in *.
    rewrite go. exact compile_expression_classes. }
  destruct e as [v|v|v|name es|op l r|op e1|items|vals|ps body|e1]; intros c node; cbn [compile_expression].
  - reflexivity.
  - reflexivity.
  - reflexivity.
  - specialize (Hall es c node). destruct (_ c node es) as [c1 n1]. exact Hall.
  - pose proof (compile_expression_classes l c node) as H1.
    destruct (compile_expression c node l) as [c1 n1]; cbn [snd] in *.
    pose proof (compile_expression_classes r c1 n1) as H2.
    destruct (compile_expression c1 n1 r) as [c2 n2]; cbn [snd] in *.
    rewrite <- H1. exact H2.
  - specialize (compile_expression_classes e1 c node).
    destruct (compile_expression c node e1) as [c1 n1]. exact compile_expression_classes.
  - specialize (Hall items c node). destruct (_ c node items) as [c1 n1]. exact Hall.
  - specialize (Hall vals c node). destruct (_ c node vals) as [c1 n1]. exact Hall.
  - destruct (_ c _ body) as [c1 l1]. reflexivity.
  - specialize (compile_expression_classes e1 c node).
    destruct (compile_expression c node e1) as [c1 n1]. exact compile_expression_classes.
Qed.

Lemma compile_statements_classes : forall ss c node x,
  In x (map snd (instance_classes (snd (compile_statements c node ss)))) ->
  In x (map snd (instance_classes node)) \/
  exists def v, In (STypeDef def) ss /\ In v (variants def) /\ class_variant x = variant_name v.
Proof.
  induction ss as [| s ss IH]; intros c node x H; cbn [compile_statements] in H; [left; exact H |].
  destruct (compile_statement c node s) as [c1 n1] eqn:E.
  destruct (IH _ _ _ H) as [H1 | (def & v & Hd & Hv & Hx)].
  - destruct s as [name value | e | def]; cbn [compile_statement] in E.
    + pose proof (compile_expression_classes value c node) as Hc.
      destruct (compile_expression c node value) as [c2 n2].
      injection E as <- <-. left. cbn [snd] in Hc. unfold push_code in H1.
      cbn [instance_classes] in H1. rewrite <- Hc. exact H1.
    + pose proof (compile_expression_classes e c node) as Hc. rewrite E in Hc.
      left. rewrite <- Hc. exact H1.
    + pose proof (compile_variants_classes (variants def) c node def x) as Hv.
      rewrite E in Hv. destruct (Hv H1) as [H2 | (v & Hin & Hx)].
      * left. exact H2.
      * right. exists def, v. split; [left; reflexivity | split; assumption].
  - right. exists def, v. split; [right; exact Hd | split; assumption].
Qed.

Lemma compile_statements_extends : forall ss c node,
  extends node (snd (compile_statements c node ss)).
Proof.
  induction ss as [| s ss IH]; intros c node; cbn [compile_statements]; [apply extends_refl |].
  pose proof (compile_statement_extends s c node) as H.
  destruct (compile_statement c node s) as [c1 n1]. eapply extends_trans; [exact H | apply IH].
Qed.

Lemma class_table_get : forall classes acc name,
  map_get String.eqb name acc = None ->
  (forall x, In x classes -> class_variant x <> name) ->
  map_get String.eqb name
    (fold_left (fun m c => map_insert String.eqb (class_variant c) c m) classes acc) = None.
Proof.
  induction classes as [| x classes IH]; intros acc name Hacc Hx; [exact Hacc |].
  cbn [fold_left]. apply IH; [| intros y Hy; apply Hx; right; exact Hy].
  rewrite (map_get_insert _ string_eqb_spec).
  destruct (String.eqb name (class_variant x)) eqn:E; [| exact Hacc].
  apply String.eqb_eq in E. exfalso. apply (Hx x); [left; reflexivity | symmetry; exact E].
Qed.

(** X17: no binary operator is defined in the runtime of [main]: a program
    whose first statement applies one to two constant operands fails with
    [UndefinedName] of the operator, unless a top-level type of the program
    has a variant with that name. *)
Theorem binary_operator_is_undefined : forall op e1 e2 v1 v2 ss,
  const_value e1 = Some v1 -> const_value e2 = Some v2 ->
  (forall def, In (STypeDef def) ss -> ~ In (operator_name op) (map variant_name (variants def))) ->
  exists n, forall fuel, n <= fuel ->
    run fuel main_runtime (compile {| statements := SExpression (EOperator op e1 e2) :: ss |}) =
    Error (UndefinedName (operator_name op)).
Proof.
  intros op e1 e2 v1 v2 ss H1 H2 Hss.
  set (root := mkCompiledFunction 0 [] [] []).
  destruct (compile_const e1 v1 {| next_id := 0%N |} root H1) as (d1 & Hc1 & Hr1).
  destruct (compile_const e2 v2 {| next_id := 0%N |}
              (mkCompiledFunction (args root) (code root ++ d1) (functions root) (instance_classes root)) H2)
    as (d2 & Hc2 & Hr2).
  exists (S (length d1 + length d2)). intros fuel Hf.
  unfold compile. cbn [statements compile_statements compile_statement compile_expression].
  fold root. rewrite Hc1. cbn beta iota. rewrite Hc2. cbn beta iota.
  set (n0 := push_code _ _).
  pose proof (compile_statements_extends ss {| next_id := 0%N |} n0) as [_ [suf Hsuf]].
  pose proof (compile_statements_classes ss {| next_id := 0%N |} n0) as Hcls.
  set (fin := snd (compile_statements _ n0 ss)) in *.
  unfold run, run_function. cbn [root_function].
  rewrite Hsuf. unfold n0, push_code. cbn [code root].
  replace fuel with (length d1 + (length d2 + S (fuel - S (length d1 + length d2)))) by lia.
  rewrite <- !app_assoc. cbn [app]. rewrite Hr1. cbn [app]. rewrite Hr2.
  cbn [run_code]. unfold env_get, env_get_instance_class, env_push. cbn [frames app rev].
  cbn [frames_get frames_get_instance_class variables map_get frame_instance_classes].
  rewrite class_table_get; [| reflexivity |].
  - destruct (main_runtime_no_operator op) as [-> ->]. reflexivity.
  - intros x Hx. apply in_map_iff in Hx. destruct Hx as ([k x'] & <- & Hin). cbn [snd].
    assert (Hin' : In x' (map snd (instance_classes fin))) by (apply in_map_iff; exists (k, x'); split; [reflexivity | exact Hin]).
    destruct (Hcls x' Hin') as [[] | (def & v & Hd & Hv & Hx)].
    intros E. apply (Hss def Hd). rewrite <- E, Hx. apply in_map. exact Hv.
Qed.

Lemma binary_operator_is_undefined_witness :
  exists n, forall fuel, n <= fuel ->
    run fuel main_runtime
      (compile {| statements := [SExpression (EOperator Operator.Plus (EInt 1) (EInt 2))] |}) =
    Error (UndefinedName "+").
Proof.
  apply (binary_operator_is_undefined Operator.Plus (EInt 1) (EInt 2) (VInt 1) (VInt 2) []).
  - reflexivity.
  - reflexivity.
  - intros def [].
Defined.

Lemma compile_args_const : forall es vs c node,
  all_some (map const_value es) = Some vs ->
  exists d, (fix compile_all (c : Compiler) (node : CompiledFunction) (es : list Expression)
                : Compiler * CompiledFunction :=
                match es with
                | [] => (c, node)
                | e :: es' => let (c1, n1) := compile_expression c node e in compile_all c1 n1 es'
                end) c node es =
            (c, mkCompiledFunction (args node) (code node ++ d) (functions node) (instance_classes node)) /\
          forall fuel rt env rest stack,
            run_code (length d + fuel) rt env (d ++ rest) stack = run_code fuel rt env rest (stack ++ vs).
Proof.
  induction es as [| e0 es IH]; intros vs c node H; cbn [map all_some] in H.
  - injection H as <-. exists []. split.
    + rewrite app_nil_r. destruct node; reflexivity.
    + intros. rewrite !app_nil_r. reflexivity.
  - destruct (const_value e0) as [v |] eqn:E1; [| discriminate].
    destruct (all_some (map const_value es)) as [vs' |] eqn:E2; [| discriminate].
    injection H as <-.
    destruct (compile_const e0 v c node E1) as (d1 & Hc1 & Hr1).
    destruct (IH vs' c (mkCompiledFunction (args node) (code node ++ d1) (functions node)
                          (instance_classes node)) eq_refl) as (d2 & Hc2 & Hr2).
    exists (d1 ++ d2). split.
    + cbn beta iota. rewrite Hc1. cbn beta iota. rewrite Hc2. cbn [args code functions instance_classes].
      rewrite app_assoc. reflexivity.
    + intros fuel rt env rest stack.
      rewrite length_app, <- Nat.add_assoc, <- app_assoc, Hr1, Hr2, <- app_assoc. reflexivity.
Qed.


Lemma keyed_by_variant_insert : forall m name cls,
  keyed_by_variant m -> class_variant cls = name ->
  keyed_by_variant (map_insert String.eqb name cls m).
Proof.
  induction m as [| [k x] m IH]; intros name cls [Hf Hd] Hc; cbn [map_insert].
  - split; [constructor; [exact Hc | constructor] | constructor; [intros [] | constructor]].
  - apply Forall_cons_iff in Hf as [Hx Hf']. cbn [map fst] in Hd. apply NoDup_cons_iff in Hd as [Hk Hd'].
    destruct (String.eqb name k) eqn:E.
    + apply String.eqb_eq in E. subst k. split; [constructor; [exact Hc | exact Hf'] | constructor; assumption].
    + destruct (IH name cls (conj Hf' Hd') Hc) as [Hf2 Hd2]. split; [constructor; assumption |].
      cbn [map fst]. constructor; [| exact Hd2].
      assert (Hkeys : forall m' : list (string * InstanceClass), ~ In k (map fst m') -> k <> name ->
                ~ In k (map fst (map_insert String.eqb name cls m'))).
      { induction m' as [| [k' x'] m' IHm]; intros Hn Hne; cbn [map_insert].
        - cbn [map fst]. intros [E' | []]. apply Hne. symmetry. exact E'.
        - destruct (String.eqb name k'); cbn [map fst].
          + exact Hn.
          + intros [E' | H']; [apply Hn; left; exact E' | apply IHm; [intros H2; apply Hn; right; exact H2 | exact Hne | exact H']]. }
      apply Hkeys; [exact Hk |]. intros ->. rewrite String.eqb_refl in E. discriminate.
Qed.

Lemma keyed_by_variant_compile_variants : forall vs c node def,
  keyed_by_variant (instance_classes node) ->
  keyed_by_variant (instance_classes (snd (compile_variants c node def vs))).
Proof.
  induction vs as [| v vs IH]; intros c node def H; cbn [compile_variants]; [exact H |].
  apply IH. unfold insert_class. cbn [instance_classes]. apply keyed_by_variant_insert; [exact H | reflexivity].
Qed.

Lemma frame_class_table : forall m acc name,
  keyed_by_variant m ->
  map_get String.eqb name
    (fold_left (fun t c => map_insert String.eqb (class_variant c) c t) (map snd m) acc) =
  match map_get String.eqb name m with
  | Some x => Some x
  | None => map_get String.eqb name acc
  end.
Proof.
  induction m as [| [k x] m IH]; intros acc name [Hf Hd]; [reflexivity |].
  apply Forall_cons_iff in Hf as [Hx Hf']. cbn [map fst] in Hd. apply NoDup_cons_iff in Hd as [Hk Hd'].
  cbn [map snd fold_left]. rewrite IH by (split; assumption). cbn [fst snd] in Hx. rewrite Hx.
  cbn [map_get]. rewrite (map_get_insert _ string_eqb_spec).
  destruct (String.eqb name k) eqn:E; [| destruct (map_get String.eqb name m); reflexivity].
  apply String.eqb_eq in E. rewrite <- E in Hk. clear - Hk.
  assert (Hn : map_get String.eqb name m = None).
  { induction m as [| [k' x'] m IHm]; [reflexivity |]. cbn [map_get].
    cbn [map fst] in Hk. destruct (String.eqb name k') eqn:E.
    - apply String.eqb_eq in E. exfalso. apply Hk. left. symmetry. exact E.
    - apply IHm. intros H. apply Hk. right. exact H. }
  rewrite Hn. reflexivity.
Qed.

(** X21: the classes of a function are collected at compile time, so a
    constructor can be called before its [typedef] statement: it builds an
    instance whose class id is the variant's index (the compiler's ids start
    at 0) and whose properties are the arguments in reverse order. *)
Theorem constructor_before_typedef : forall def i v args vs,
  nth_error (variants def) i = Some v ->
  NoDup (map variant_name (variants def)) ->
  all_some (map const_value args) = Some vs ->
  length (variant_properties v) = length args ->
  exists n, forall fuel, n <= fuel ->
    run fuel main_runtime
      (compile {| statements := [SExpression (EFunCall (variant_name v) args); STypeDef def] |}) =
    Done (VInstance (N.of_nat i) (rev vs)).
Proof.
  intros def i v args vs Hi Hnd Hvs Hlen.
  set (root := mkCompiledFunction 0 [] [] []).
  destruct (compile_args_const args vs {| next_id := 0%N |} root Hvs) as (d & Hc & Hr).
  exists (length d + 2). intros fuel Hf.
  unfold compile. cbn [statements compile_statements compile_statement compile_expression].
  fold root. rewrite Hc. cbn beta iota.
  set (n0 := push_code _ _).
  destruct (compile_variants_spec (variants def) {| next_id := 0%N |} n0 def)
    as (_ & _ & Hcode & _ & _ & Hcls).
  assert (Hkey : keyed_by_variant (instance_classes (snd (compile_variants {| next_id := 0%N |} n0 def (variants def))))).
  { apply keyed_by_variant_compile_variants. split; constructor. }
  specialize (Hcls Hnd i v Hi). cbn [next_id] in Hcls.
  destruct (compile_variants {| next_id := 0%N |} n0 def (variants def)) as [c1 fin] eqn:E.
  cbn [snd fst] in Hcode, Hcls, Hkey. cbn [snd].
  unfold run, run_function. cbn [root_function]. rewrite Hcode. unfold n0, push_code. cbn [code root app].
  replace fuel with (length d + S (S (fuel - S (S (length d))))) by lia.
  rewrite Hr. cbn [run_code app].
  unfold env_get, env_get_instance_class, env_push. cbn [frames app rev].
  cbn [frames_get frames_get_instance_class variables map_get frame_instance_classes].
  rewrite frame_class_table by exact Hkey. rewrite Hcls. cbn [variant_class class_properties class_id].
  rewrite Hlen, <- (length_map const_value args), <- (all_some_length _ _ Hvs).
  change (pop_n (length vs) vs []) with (pop_n (length vs) ([] ++ vs) []).
  rewrite pop_n_app. cbn [app run_code vec_pop]. unfold env_pop. cbn [frames vec_pop].
  rewrite N.add_0_l. reflexivity.
Qed.

Lemma constructor_before_typedef_witness :
  exists n, forall fuel, n <= fuel ->
    run fuel main_runtime
      (compile {| statements :=
         [SExpression (EFunCall "Pair" [EInt 1; EInt 2]);
          STypeDef {| typedef_name := "Pair";
                      variants := [{| variant_name := "Pair"; variant_properties := ["a"; "b"] |}] |}] |}) =
    Done (VInstance 0 [VInt 2; VInt 1]).
Proof.
  apply (constructor_before_typedef
           {| typedef_name := "Pair";
              variants := [{| variant_name := "Pair"; variant_properties := ["a"; "b"] |}] |}
           0 {| variant_name := "Pair"; variant_properties := ["a"; "b"] |}
           [EInt 1; EInt 2] [VInt 1; VInt 2]).
  - reflexivity.
  - constructor; [intros [] | constructor].
  - reflexivity.
  - reflexivity.
Defined.

Lemma read_string_loop_plain : forall code n k fuel content,
  let c := list_ascii_of_string code in
  (forall i, i < n -> Ascii.eqb (nth (k + i) c nul) quote = false /\
                      Ascii.eqb (nth (k + i) c nul) backslash = false) ->
  read_string_loop (n + fuel) (reader_at code k) content =
  read_string_loop fuel (reader_at code (k + n)) (content ++ slice c k n)%string.
Proof.
  intros code n. induction n as [| n IH]; intros k fuel content c Hin.
  - rewrite Nat.add_0_r. unfold slice; cbn [seq map string_of_list_ascii].
    rewrite string_app_nil_r. reflexivity.
  - cbn [Nat.add read_string_loop]. rewrite current_at. fold c.
    destruct (Hin 0 ltac:(lia)) as [Hq Hb]. rewrite Nat.add_0_r in Hq, Hb. rewrite Hq, Hb.
    rewrite shift_at, (IH (S k) fuel).
    + rewrite slice_S, push_app. replace (S k + n) with (k + S n) by lia. reflexivity.
    + intros i Hi. replace (S k + i) with (k + S i) by lia. apply Hin. lia.
Qed.

(** X22: inside a string literal a backslash and the byte after it stand
    for one byte: 0, n, t and r give the bytes 0, line feed, tab and
    carriage return, and any other byte stands for itself. *)
Theorem string_escape_at : forall code k n1 n2 fuel,
  let c := list_ascii_of_string code in
  let j := S k + n1 in
  let b := nth (S j) c nul in
  let e := j + 2 + n2 in
  nth k c nul = quote ->
  (forall i, i < n1 -> Ascii.eqb (nth (S k + i) c nul) quote = false /\
                       Ascii.eqb (nth (S k + i) c nul) backslash = false) ->
  nth j c nul = backslash ->
  (forall i, i < n2 -> Ascii.eqb (nth (j + 2 + i) c nul) quote = false /\
                       Ascii.eqb (nth (j + 2 + i) c nul) backslash = false) ->
  nth e c nul = quote ->
  n1 + n2 + 1 < fuel ->
  tokenizer_next (S fuel) (reader_at code k) =
  Some (reader_at code (S e),
        (Token.StringLiteral
           (slice c (S k) n1 ++
            String (if Ascii.eqb b "0" then nul
                    else if Ascii.eqb b "n" then "010"%char
                    else if Ascii.eqb b "t" then "009"%char
                    else if Ascii.eqb b "r" then "013"%char
                    else b)
                   (slice c (j + 2) n2)),
         (span (reader_at code k), span (reader_at code (S e))))).
Proof.
  intros code k n1 n2 fuel c j b e Hq Hin1 Hbs Hin2 Hout Hf.
  rewrite tokenizer_next_plain by (rewrite current_at; fold c; rewrite Hq; reflexivity).
  unfold next_token. rewrite current_at. fold c. rewrite Hq. cbv -[read_string reader_at].
  unfold read_string. rewrite shift_at.
  replace (S fuel) with (n1 + S (S fuel - S n1)) by lia.
  rewrite (read_string_loop_plain code n1 (S k) _ "") by exact Hin1.
  fold j. cbn [read_string_loop]. rewrite current_at. fold c. rewrite Hbs.
  replace (Ascii.eqb backslash quote) with false by reflexivity. rewrite Ascii.eqb_refl.
  rewrite shift_at, current_at. fold c. fold b. rewrite shift_at.
  replace (S (S j)) with (j + 2) by lia.
  rewrite (read_string_loop_at code n2 (j + 2) (S fuel - S n1) _); [| lia | exact Hin2 | exact Hout].
  fold e. rewrite push_app. cbn [append]. reflexivity.
Qed.

Lemma string_escape_at_witness :
  tokenizer_next 10 (reader_at (String quote ("a" ++ String backslash ("nb" ++ String quote ""))) 0) =
  Some (reader_at (String quote ("a" ++ String backslash ("nb" ++ String quote ""))) 6,
        (Token.StringLiteral ("a" ++ String "010" "b"),
         (span (reader_at (String quote ("a" ++ String backslash ("nb" ++ String quote ""))) 0),
          span (reader_at (String quote ("a" ++ String backslash ("nb" ++ String quote ""))) 6)))).
Proof.
  apply (string_escape_at (String quote ("a" ++ String backslash ("nb" ++ String quote ""))) 0 1 1 9);
    first [reflexivity | check_below | lia].
Defined.

Lemma skip_float_suffix_at : forall code p,
  skip_float_suffix (reader_at code p) =
  if is_float_suffix (nth p (list_ascii_of_string code) nul) then reader_at code (S p)
  else reader_at code p.
Proof.
  intros code p. unfold skip_float_suffix. rewrite current_at.
  destruct (is_float_suffix _); [apply shift_at | reflexivity].
Qed.

Lemma last_byte_point_zero : forall s, last_byte (s ++ ".0") = Some "0"%char.
Proof.
  intros s. unfold last_byte.
  assert (Hl : String.length (s ++ ".0") = String.length s + 2)
    by (induction s as [| a s IH]; [reflexivity | cbn [append String.length]; rewrite IH; reflexivity]).
  rewrite Hl.
  replace (String.length s + 2 - 1) with (1 + String.length s) by lia.
  rewrite <- String.append_correct2. reflexivity.
Qed.

(** X23: a decimal literal with a point: [n > 0] digits, the first not 0,
    a point and [m] digits, not followed by an exponent mark, is read as a
    [FloatingLiteral] holding that text; one float suffix letter after it
    is skipped. *)
Theorem float_literal_at : forall code k n m fuel,
  let c := list_ascii_of_string code in
  let p := S (k + n) + m in
  let q := if is_float_suffix (nth p c nul) then S p else p in
  0 < n -> n < S fuel -> m < S fuel ->
  Ascii.eqb (nth k c nul) "0" = false ->
  (forall i, i < n -> is_ascii_digit (nth (k + i) c nul) = true) ->
  nth (k + n) c nul = "."%char ->
  (forall i, i < m -> is_ascii_digit (nth (S (k + n) + i) c nul) = true) ->
  is_ascii_digit (nth p c nul) = false ->
  Ascii.eqb (nth p c nul) "e" || Ascii.eqb (nth p c nul) "E" = false ->
  tokenizer_next (S fuel) (reader_at code k) =
  Some (reader_at code q,
        (Token.FloatingLiteral (slice c k n ++ String "." (slice c (S (k + n)) m)),
         (span (reader_at code k), span (reader_at code q)))).
Proof.
  intros code k n m fuel c p q Hn Hf Hm H0 Hin Hdot Hin2 Hout He.
  assert (Hd := Hin 0 Hn). rewrite Nat.add_0_r in Hd.
  destruct (digit_char_facts _ Hd) as (Hid & Hw & Hs & Hp).
  rewrite tokenizer_next_plain by (rewrite current_at; assumption).
  unfold next_token. rewrite current_at. fold c. rewrite Hid, Hd.
  unfold read_number. rewrite current_at. fold c. rewrite H0, Hp.
  rewrite (read_digits_at code n k (S fuel) "").
  2: lia. 2: exact Hin. 2: (cbv zeta; fold c; rewrite Hdot; reflexivity).
  rewrite current_at. fold c. rewrite Hdot. rewrite Ascii.eqb_refl.
  unfold read_fraction. rewrite shift_at.
  rewrite (read_digits_at code m (S (k + n)) (S fuel)) by assumption. fold p.
  unfold read_exponent. rewrite current_at. fold c.
  apply orb_false_iff in He as [He1 He2]. rewrite He1, He2. cbn [negb andb].
  rewrite skip_float_suffix_at. fold c. unfold q.
  rewrite push_app. cbn [append]. destruct (is_float_suffix (nth p c nul)); reflexivity.
Qed.

(** X24: [n > 0] digits, the first not 0, followed by an exponent mark
    [e] or [E], an optional sign and [m] digits, is read as a
    [FloatingLiteral] whose text inserts [.0] before the exponent, writes
    it with a lower-case [e] and always has a sign ([+] when none was
    written). *)
Theorem exponent_literal_at : forall code k n m fuel,
  let c := list_ascii_of_string code in
  let s := nth (S (k + n)) c nul in
  let signed := Ascii.eqb s "+" || Ascii.eqb s "-" in
  let d := if signed then S (S (k + n)) else S (k + n) in
  let p := d + m in
  let q := if is_float_suffix (nth p c nul) then S p else p in
  0 < n -> n < S fuel -> m < S fuel ->
  Ascii.eqb (nth k c nul) "0" = false ->
  (forall i, i < n -> is_ascii_digit (nth (k + i) c nul) = true) ->
  Ascii.eqb (nth (k + n) c nul) "e" || Ascii.eqb (nth (k + n) c nul) "E" = true ->
  (forall i, i < m -> is_ascii_digit (nth (d + i) c nul) = true) ->
  is_ascii_digit (nth p c nul) = false ->
  tokenizer_next (S fuel) (reader_at code k) =
  Some (reader_at code q,
        (Token.FloatingLiteral
           (slice c k n ++ ".0e" ++ String (if signed then s else "+"%char) (slice c d m)),
         (span (reader_at code k), span (reader_at code q)))).
Proof.
  intros code k n m fuel c s signed d p q Hn Hf Hm H0 Hin He Hin2 Hout.
  assert (Hd := Hin 0 Hn). rewrite Nat.add_0_r in Hd.
  destruct (digit_char_facts _ Hd) as (Hid & Hw & Hs & Hp).
  assert (Hx : nth (k + n) c nul = "e"%char \/ nth (k + n) c nul = "E"%char).
  { apply orb_true_iff in He as [E | E]; apply Ascii.eqb_eq in E; [left | right]; exact E. }
  rewrite tokenizer_next_plain by (rewrite current_at; assumption).
  unfold next_token. rewrite current_at. fold c. rewrite Hid, Hd.
  unfold read_number. rewrite current_at. fold c. rewrite H0, Hp.
  rewrite (read_digits_at code n k (S fuel) "").
  2: lia. 2: exact Hin. 2: (cbv zeta; fold c; destruct Hx as [-> | ->]; reflexivity).
  rewrite current_at. fold c.
  replace (Ascii.eqb (nth (k + n) c nul) ".") with false by (destruct Hx as [-> | ->]; reflexivity).
  rewrite He.
  unfold read_exponent. rewrite current_at. fold c.
  replace (negb (Ascii.eqb (nth (k + n) c nul) "e") && negb (Ascii.eqb (nth (k + n) c nul) "E"))
    with false by (destruct Hx as [-> | ->]; reflexivity).
  rewrite last_byte_point_zero. change (Ascii.eqb "0" ".") with false. cbv beta iota.
  rewrite shift_at, current_at. fold c. fold s. fold signed.
  assert (Hsh : (if signed then (shift (reader_at code (S (k + n))), push (push (("" ++ slice c k n) ++ ".0") "e") s)
                 else (reader_at code (S (k + n)), push (push (("" ++ slice c k n) ++ ".0") "e") "+")) =
                (reader_at code d, push (push (("" ++ slice c k n) ++ ".0") "e") (if signed then s else "+"%char))).
  { unfold d. destruct signed; [rewrite shift_at |]; reflexivity. }
  rewrite Hsh.
  rewrite (read_digits_at code m d (S fuel)) by assumption. fold p.
  rewrite skip_float_suffix_at. fold c. unfold q.
  rewrite !push_app, string_app_assoc. cbn [append]. destruct (is_float_suffix (nth p c nul)); reflexivity.
Qed.

Lemma float_literal_at_witness :
  tokenizer_next 10 (reader_at "12.5f;" 0) =
  Some (reader_at "12.5f;" 5,
        (Token.FloatingLiteral "12.5", (span (reader_at "12.5f;" 0), span (reader_at "12.5f;" 5)))).
Proof.
  apply (float_literal_at "12.5f;" 0 2 1 9); first [reflexivity | check_below | lia].
Defined.

Lemma exponent_literal_at_witness :
  tokenizer_next 10 (reader_at "3e-7;" 0) =
  Some (reader_at "3e-7;" 4,
        (Token.FloatingLiteral "3.0e-7", (span (reader_at "3e-7;" 0), span (reader_at "3e-7;" 4)))).
Proof.
  apply (exponent_literal_at "3e-7;" 0 1 1 9); first [reflexivity | check_below | lia].
Defined.

Lemma eof_at : forall code k,
  eof (reader_at code k) = Nat.leb (length (list_ascii_of_string code)) (S (S k)).
Proof. intros code k. unfold reader_at. apply shifts_eof. Qed.

Lemma shift_multiple_at : forall code k,
  shift_multiple (reader_at code k) 2 =
  if Nat.leb (length (list_ascii_of_string code)) (S (S k)) then reader_at code k
  else reader_at code (S (S k)).
Proof.
  intros code k. unfold shift_multiple. rewrite eof_at.
  destruct (Nat.leb _ _); [reflexivity |].
  change (Nat.iter 2 shift (reader_at code k)) with (shift (shift (reader_at code k))).
  rewrite !shift_at. reflexivity.
Qed.

Lemma skip_line_at : forall code n k fuel,
  let c := list_ascii_of_string code in
  n < fuel ->
  (forall i, i < n -> Ascii.eqb (nth (k + i) c nul) "010" = false /\
                      Ascii.eqb (nth (k + i) c nul) nul = false) ->
  Ascii.eqb (nth (k + n) c nul) "010" || Ascii.eqb (nth (k + n) c nul) nul = true ->
  skip_line fuel (reader_at code k) = Some (reader_at code (k + n)).
Proof.
  intros code n. induction n as [| n IH]; intros k fuel c Hf Hin Hout;
    (destruct fuel as [| f]; [lia |]); cbn [skip_line]; rewrite current_at; fold c.
  - rewrite Nat.add_0_r in *.
    destruct (Ascii.eqb (nth k c nul) "010"), (Ascii.eqb (nth k c nul) nul);
      try discriminate; reflexivity.
  - destruct (Hin 0 ltac:(lia)) as [H1 H2]. rewrite Nat.add_0_r in H1, H2. rewrite H1, H2.
    cbn [negb andb]. rewrite shift_at, (IH (S k) f); [| lia | | ].
    + replace (S k + n) with (k + S n) by lia. reflexivity.
    + intros i Hi. replace (S k + i) with (k + S i) by lia. apply Hin. lia.
    + replace (S k + n) with (k + S n) by lia. exact Hout.
Qed.

Lemma skip_block_at : forall code n k fuel,
  let c := list_ascii_of_string code in
  n < fuel ->
  (forall i, i < n -> Ascii.eqb (nth (k + i) c nul) nul = false /\
                      Ascii.eqb (nth (k + i) c nul) "*" && Ascii.eqb (nth (S (k + i)) c nul) "/" = false) ->
  nth (k + n) c nul = "*"%char -> nth (S (k + n)) c nul = "/"%char ->
  skip_block fuel (reader_at code k) = Some (shift_multiple (reader_at code (k + n)) 2).
Proof.
  intros code n. induction n as [| n IH]; intros k fuel c Hf Hin H1 H2;
    (destruct fuel as [| f]; [lia |]); cbn [skip_block]; rewrite current_at; fold c.
  - rewrite Nat.add_0_r in *. rewrite next_at. fold c. rewrite H1, H2. reflexivity.
  - destruct (Hin 0 ltac:(lia)) as [E1 E2]. rewrite Nat.add_0_r in E1, E2. rewrite E1.
    rewrite next_at. fold c. rewrite E2.
    rewrite shift_at, (IH (S k) f); [| lia | | | ].
    + replace (S k + n) with (k + S n) by lia. reflexivity.
    + intros i Hi. replace (S k + i) with (k + S i) by lia. apply Hin. lia.
    + replace (S k + n) with (k + S n) by lia. exact H1.
    + replace (S (S k + n)) with (S (k + S n)) by lia. exact H2.
Qed.

Lemma trim_comments_stop : forall fuel r,
  Ascii.eqb (current r) "/" = false -> trim_comments (S fuel) r = Some r.
Proof. intros fuel r H. cbn [trim_comments]. rewrite H. reflexivity. Qed.

(** X18: a line comment is skipped: reading a token at a [//] gives the
    same result as reading it after the comment, its line end and the
    white space that follows. *)
Theorem line_comment_skipped_at : forall code k n w fuel,
  let c := list_ascii_of_string code in
  let j := k + 2 + n in
  nth k c nul = "/"%char -> nth (S k) c nul = "/"%char ->
  (forall i, i < n -> Ascii.eqb (nth (k + 2 + i) c nul) "010" = false /\
                      Ascii.eqb (nth (k + 2 + i) c nul) nul = false) ->
  Ascii.eqb (nth j c nul) "010" || Ascii.eqb (nth j c nul) nul = true ->
  (forall i, i < w -> is_ascii_whitespace (nth (j + i) c nul) = true) ->
  is_ascii_whitespace (nth (j + w) c nul) = false ->
  Ascii.eqb (nth (j + w) c nul) "/" = false ->
  n + w + 3 < fuel ->
  tokenizer_next fuel (reader_at code k) = tokenizer_next fuel (reader_at code (j + w)).
Proof.
  intros code k n w fuel c j H0 H1 Hin Hend Hw Hwe Hs Hf.
  destruct fuel as [| f]; [lia |]. unfold tokenizer_next.
  rewrite (trim_spaces_at code 0 k (S f)) by (try lia; rewrite Nat.add_0_r; fold c; rewrite H0; reflexivity).
  rewrite (trim_spaces_at code 0 (j + w) (S f)) by (try lia; rewrite Nat.add_0_r; exact Hwe).
  rewrite !Nat.add_0_r.
  rewrite (trim_comments_stop f (reader_at code (j + w))) by (rewrite current_at; exact Hs).
  cbn [trim_comments]. rewrite current_at, next_at. fold c. rewrite H0, H1.
  cbn [negb Ascii.eqb Bool.eqb andb].
  assert (Hl : skip_line f (shift_multiple (reader_at code k) 2) = Some (reader_at code j)).
  { rewrite shift_multiple_at. fold c. destruct (Nat.leb (length c) (S (S k))).
    - replace j with (k + (2 + n)) by (unfold j; lia).
      apply skip_line_at; [lia | | unfold j in Hend; replace (k + (2 + n)) with (k + 2 + n) by lia; exact Hend].
      intros i Hi. destruct i as [| [| i]].
      + rewrite Nat.add_0_r. fold c. rewrite H0. split; reflexivity.
      + replace (k + 1) with (S k) by lia. fold c. rewrite H1. split; reflexivity.
      + replace (k + S (S i)) with (k + 2 + i) by lia. apply Hin. lia.
    - replace j with (S (S k) + n) by (unfold j; lia).
      apply skip_line_at; [lia | | replace (S (S k) + n) with j by (unfold j; lia); exact Hend].
      intros i Hi. replace (S (S k) + i) with (k + 2 + i) by lia. apply Hin. exact Hi. }
  rewrite Hl. cbv beta iota.
  rewrite (trim_spaces_at code w j f) by (try lia; assumption).
  destruct f as [| f]; [lia |].
  rewrite (trim_comments_stop f (reader_at code (j + w))) by (rewrite current_at; exact Hs).
  reflexivity.
Qed.

(** X19: a block comment that does not end the source is skipped: reading
    a token at a [/*] gives the same result as reading it after the closing
    [*/] and the white space that follows. *)
Theorem block_comment_skipped_at : forall code k n w fuel,
  let c := list_ascii_of_string code in
  let j := k + 4 + n in
  nth k c nul = "/"%char -> nth (S k) c nul = "*"%char ->
  (forall i, i < n -> Ascii.eqb (nth (k + 2 + i) c nul) nul = false /\
                      Ascii.eqb (nth (k + 2 + i) c nul) "*" &&
                      Ascii.eqb (nth (S (k + 2 + i)) c nul) "/" = false) ->
  nth (k + 2 + n) c nul = "*"%char -> nth (k + 3 + n) c nul = "/"%char ->
  j < length c ->
  (forall i, i < w -> is_ascii_whitespace (nth (j + i) c nul) = true) ->
  is_ascii_whitespace (nth (j + w) c nul) = false ->
  Ascii.eqb (nth (j + w) c nul) "/" = false ->
  n + w + 3 < fuel ->
  tokenizer_next fuel (reader_at code k) = tokenizer_next fuel (reader_at code (j + w)).
Proof.
  intros code k n w fuel c j H0 H1 Hin Hc1 Hc2 Hlen Hw Hwe Hs Hf.
  destruct fuel as [| f]; [lia |]. unfold tokenizer_next.
  rewrite (trim_spaces_at code 0 k (S f)) by (try lia; rewrite Nat.add_0_r; fold c; rewrite H0; reflexivity).
  rewrite (trim_spaces_at code 0 (j + w) (S f)) by (try lia; rewrite Nat.add_0_r; exact Hwe).
  rewrite !Nat.add_0_r.
  rewrite (trim_comments_stop f (reader_at code (j + w))) by (rewrite current_at; exact Hs).
  cbn [trim_comments]. rewrite current_at, next_at. fold c. rewrite H0, H1.
  cbn [negb Ascii.eqb Bool.eqb andb].
  rewrite shift_multiple_at. fold c.
  replace (Nat.leb (length c) (S (S k))) with false by (symmetry; apply Nat.leb_gt; unfold j in Hlen; lia).
  rewrite (skip_block_at code n (S (S k)) f); [| lia | | | ].
  - rewrite shift_multiple_at. fold c.
    replace (Nat.leb (length c) (S (S (S (S k) + n)))) with false
      by (symmetry; apply Nat.leb_gt; unfold j in Hlen; lia).
    replace (S (S (S (S k) + n))) with j by (unfold j; lia).
    cbv beta iota.
    rewrite (trim_spaces_at code w j f) by (try lia; assumption).
    destruct f as [| f]; [lia |].
    rewrite (trim_comments_stop f (reader_at code (j + w))) by (rewrite current_at; exact Hs).
    reflexivity.
  - intros i Hi. replace (S (S k) + i) with (k + 2 + i) by lia. apply Hin. exact Hi.
  - replace (S (S k) + n) with (k + 2 + n) by lia. exact Hc1.
  - replace (S (S (S k) + n)) with (k + 3 + n) by lia. exact Hc2.
Qed.

(** X20: a block comment whose closing [*/] is the last two bytes of the
    source is not skipped: the reader's [eof] flag is already set there, so
    [shift_multiple] does not move past the [*/], and the tokenizer returns
    a [Times] token and then a [Div] token for it. *)
Theorem block_comment_closing_at_end : forall code k n fuel,
  let c := list_ascii_of_string code in
  let e := k + 2 + n in
  nth k c nul = "/"%char -> nth (S k) c nul = "*"%char ->
  (forall i, i < n -> Ascii.eqb (nth (k + 2 + i) c nul) nul = false /\
                      Ascii.eqb (nth (k + 2 + i) c nul) "*" &&
                      Ascii.eqb (nth (S (k + 2 + i)) c nul) "/" = false) ->
  nth e c nul = "*"%char -> nth (S e) c nul = "/"%char ->
  length c = S (S e) ->
  n + 2 < fuel ->
  tokenizer_next fuel (reader_at code k) =
    Some (reader_at code (S e), (Token.Times, (span (reader_at code e), span (reader_at code (S e))))) /\
  tokenizer_next fuel (reader_at code (S e)) =
    Some (reader_at code (S (S e)), (Token.Div, (span (reader_at code (S e)), span (reader_at code (S (S e)))))).
Proof.
  intros code k n fuel c e H0 H1 Hin Hc1 Hc2 Hlen Hf.
  assert (Hnul : nth (S (S e)) c nul = nul) by (apply nth_overflow; lia).
  destruct fuel as [| f]; [lia |]. split.
  - unfold tokenizer_next.
    rewrite (trim_spaces_at code 0 k (S f)) by (try lia; rewrite Nat.add_0_r; fold c; rewrite H0; reflexivity).
    rewrite Nat.add_0_r.
    cbn [trim_comments]. rewrite current_at, next_at. fold c. rewrite H0, H1.
    cbn [negb Ascii.eqb Bool.eqb andb].
    rewrite shift_multiple_at. fold c.
    replace (Nat.leb (length c) (S (S k))) with false by (symmetry; apply Nat.leb_gt; unfold e in Hlen; lia).
    rewrite (skip_block_at code n (S (S k)) f); [| lia | | | ].
    + replace (S (S k) + n) with e by (unfold e; lia).
      rewrite shift_multiple_at. fold c.
      replace (Nat.leb (length c) (S (S e))) with true by (symmetry; apply Nat.leb_le; lia).
      cbv beta iota.
      rewrite (trim_spaces_at code 0 e f) by (try lia; rewrite Nat.add_0_r; fold c; rewrite Hc1; reflexivity).
      rewrite Nat.add_0_r.
      destruct f as [| f]; [lia |].
      rewrite (trim_comments_stop f) by (rewrite current_at; fold c; rewrite Hc1; reflexivity).
      unfold next_token. rewrite current_at, next_at. fold c. rewrite Hc1, Hc2.
      cbv -[produce reader_at span]. unfold produce. rewrite shift_at. reflexivity.
    + intros i Hi. replace (S (S k) + i) with (k + 2 + i) by lia. apply Hin. exact Hi.
    + replace (S (S k) + n) with e by (unfold e; lia). exact Hc1.
    + replace (S (S (S k) + n)) with (S e) by (unfold e; lia). exact Hc2.
  - unfold tokenizer_next.
    rewrite (trim_spaces_at code 0 (S e) (S f)) by (try lia; rewrite Nat.add_0_r; fold c; rewrite Hc2; reflexivity).
    rewrite Nat.add_0_r.
    cbn [trim_comments]. rewrite current_at, next_at. fold c. rewrite Hc2, Hnul.
    cbv beta iota delta [negb Ascii.eqb Bool.eqb andb nul].
    unfold next_token. rewrite current_at, next_at. fold c. rewrite Hc2, Hnul.
    cbv -[produce reader_at span]. unfold produce. rewrite shift_at. reflexivity.
Qed.

Lemma line_comment_skipped_at_witness :
  tokenizer_next 10 (reader_at ("//c" ++ String "010" "x") 0) =
  tokenizer_next 10 (reader_at ("//c" ++ String "010" "x") 4).
Proof.
  apply (line_comment_skipped_at ("//c" ++ String "010" "x") 0 1 1 10);
    first [reflexivity | check_below | lia].
Defined.

Lemma block_comment_skipped_at_witness :
  tokenizer_next 10 (reader_at "/*a*/ x" 0) = tokenizer_next 10 (reader_at "/*a*/ x" 6).
Proof.
  apply (block_comment_skipped_at "/*a*/ x" 0 1 1 10);
    first [reflexivity | check_below | apply Nat.ltb_lt; reflexivity | lia].
Defined.

Lemma block_comment_closing_at_end_witness :
  tokenizer_next 10 (reader_at "x/*a*/" 1) =
    Some (reader_at "x/*a*/" 5, (Token.Times, (span (reader_at "x/*a*/" 4), span (reader_at "x/*a*/" 5)))) /\
  tokenizer_next 10 (reader_at "x/*a*/" 5) =
    Some (reader_at "x/*a*/" 6, (Token.Div, (span (reader_at "x/*a*/" 5), span (reader_at "x/*a*/" 6)))).
Proof.
  apply (block_comment_closing_at_end "x/*a*/" 1 1 10);
    first [reflexivity | check_below | lia].
Defined.
